(** * hibp-fast: the hash record model, its hex codec and the downloader's
      queue management, embedded from
      [include/hibp.hpp], [src/download/queuemgt.cpp], [app/hibp.cpp] and
      [app/hibp_server.cpp]. *)

From stdpp Require Import gmap.
From Stdlib Require Import String Ascii ZArith NArith Bool Lia List Sorted.
Import ListNotations.
Local Open Scope Z_scope.

(** ** Characters, bytes and the assertion monad *)

(** A [std::string] is a [list ascii].  String literals of the sources are
    written with [str]. *)
Definition str (s : string) : list ascii := list_ascii_of_string s.

(** [char] is a signed 8-bit type on the platforms the project builds for;
    integral promotion of a [char] gives a value in [-128, 127]. *)
Definition char_to_int (c : ascii) : Z :=
  let n := Z.of_N (N_of_ascii c) in
  if n <? 128 then n else n - 256.

(** [static_cast<char>(i)] for an [int] i: reduction modulo 2^8. *)
Definition int_to_char (i : Z) : ascii := ascii_of_N (Z.to_N (i mod 256)).

(** A [std::byte] is an 8-bit unsigned value, kept as a [Z] in [0, 256).
    [static_cast<std::byte>(i)] wraps. *)
Definition to_byte (i : Z) : Z := i mod 256.

(** [static_cast<char>(b)] for a [std::byte] b: reinterpretation as signed. *)
Definition byte_to_char_int (b : Z) : Z :=
  let n := b mod 256 in
  if n <? 128 then n else n - 256.

Definition is_byte (b : Z) : Prop := 0 <= b < 256.

(** [assert(e)]: [None] is the aborted program. *)
Definition assert (b : bool) : option unit := if b then Some tt else None.

Notation "x <- a ;; b" :=
  (match a with Some x => b | None => None end)
  (at level 100, a at next level, right associativity).
Notation "'check' a ;; b" :=
  (match assert a with Some _ => b | None => None end)
  (at level 100, a at next level, right associativity).

(** ** include/hibp.hpp *)

Definition nibble_to_char (nibble : Z) : option ascii :=
  let uc := byte_to_char_int nibble in
  check ((0 <=? uc) && (uc <=? 15)) ;;
  if uc <? 10 then Some (int_to_char (char_to_int "0" + uc))
  else Some (int_to_char (char_to_int "A" + uc - 10)).

Record pawned_pw := mk_pawned_pw {
  hash : list Z;   (* std::array<std::byte, 20> *)
  count : Z        (* std::int32_t *)
}.

Definition hash_size : nat := 20.

Definition INT32_MIN : Z := - 2 ^ 31.
Definition INT32_MAX : Z := 2 ^ 31 - 1.

Definition well_formed (p : pawned_pw) : Prop :=
  length (hash p) = hash_size /\ Forall is_byte (hash p) /\
  INT32_MIN <= count p <= INT32_MAX.

(** *** Positional digits, shared by [std::to_chars], [std::from_chars] and
    [std::format] *)

(** Digits of [n] in base [base], most significant first, at least one. *)
Fixpoint digits_aux (base : N) (fuel : nat) (n : N) (acc : list N) : list N :=
  match fuel with
  | O => acc
  | S f =>
      let acc' := (n mod base)%N :: acc in
      if (n / base =? 0)%N then acc' else digits_aux base f (n / base)%N acc'
  end.

Definition digits (base n : N) : list N :=
  digits_aux base (S (N.to_nat (N.log2 n))) n [].

Definition of_digits (base : N) (ds : list N) : N :=
  fold_left (fun a d => (a * base + d)%N) ds 0%N.

Definition dec_digit_char (d : N) : ascii := ascii_of_N (48 + d).
Definition upper_hex_digit_char (d : N) : ascii :=
  if (d <? 10)%N then ascii_of_N (48 + d) else ascii_of_N (65 + d - 10).

Definition is_dec_digit (c : ascii) : bool :=
  let n := N_of_ascii c in ((48 <=? n) && (n <=? 57))%N.
Definition dec_digit_val (c : ascii) : N := N_of_ascii c - 48.

(** [std::to_chars(first, last, value)] for a 32-bit signed value, base 10:
    a minus sign for negative values, then the digits without leading
    zeros.  The 19 bytes left in the 60-byte buffer of [to_string] always
    suffice (at most 11 are needed), so the call cannot fail there. *)
Definition to_chars (value : Z) : list ascii :=
  if value <? 0 then "-"%char :: map dec_digit_char (digits 10 (Z.to_N (- value)))
  else map dec_digit_char (digits 10 (Z.to_N value)).

Fixpoint span_digits (s : list ascii) : list ascii :=
  match s with
  | c :: t => if is_dec_digit c then c :: span_digits t else []
  | [] => []
  end.

(** [std::from_chars(first, last, value)] for a 32-bit signed value, base
    10: an optional minus sign (no plus sign, no white space), then the
    longest run of decimal digits.  [None] when there is no digit
    ([std::errc::invalid_argument]) or the number does not fit
    ([std::errc::result_out_of_range]); in both cases the caller's variable
    is left as it was. *)
Definition from_chars (s : list ascii) : option Z :=
  let '(neg, body) :=
    match s with
    | c :: t => if Ascii.eqb c "-" then (true, t) else (false, s)
    | [] => (false, s)
    end in
  match span_digits body with
  | [] => None
  | ds =>
      let m := Z.of_N (of_digits 10 (map dec_digit_val ds)) in
      let v := if neg then - m else m in
      if (INT32_MIN <=? v) && (v <=? INT32_MAX) then Some v else None
  end.

(** [pawned_pw::to_string].  In C++ the shift binds tighter than the
    bitwise and, so the first character of each pair is computed from
    [h & (std::byte(0xF0) >> 4)]. *)
Fixpoint hash_to_hex (h : list Z) : option (list ascii) :=
  match h with
  | [] => Some []
  | b :: t =>
      c1 <- nibble_to_char (Z.land b (to_byte (Z.shiftr 0xF0 4))) ;;
      c2 <- nibble_to_char (Z.land b 0x0F) ;;
      rest <- hash_to_hex t ;;
      Some (c1 :: c2 :: rest)
  end.

Definition to_string (p : pawned_pw) : option (list ascii) :=
  hex <- hash_to_hex (hash p) ;;
  Some (hex ++ ":"%char :: to_chars (count p)).

Definition make_nibble (nibblechr : ascii) : option Z :=
  let nibble := char_to_int nibblechr - char_to_int "0" in
  let nibble :=
    if 9 <? nibble
    then Z.land nibble (Z.lnot (char_to_int "a" - char_to_int "A"))
         - (char_to_int "A" - char_to_int "0") + 10
    else nibble in
  check ((0 <=? nibble) && (nibble <=? 15)) ;;
  Some (to_byte nibble).

Definition make_byte (mschr lschr : ascii) : option Z :=
  ms <- make_nibble mschr ;;
  ls <- make_nibble lschr ;;
  Some (Z.lor (to_byte (Z.shiftl ms 4)) ls).

(** [text[i]]; [c_str()] is NUL-terminated. *)
Definition char_at (text : list ascii) (i : nat) : ascii := nth i text zero.

(** The loop over [ppw.hash] of [convert_to_binary]: [n] bytes still to
    fill, [i] the running index. *)
Fixpoint read_hash (n i : nat) (text : list ascii) : option (list Z) :=
  match n with
  | O => Some []
  | S n' =>
      b <- make_byte (char_at text (2 * i)) (char_at text (2 * i + 1)) ;;
      rest <- read_hash n' (S i) text ;;
      Some (b :: rest)
  end.

Definition convert_to_binary (text : list ascii) : option pawned_pw :=
  check (hash_size * 2 <=? length text)%nat ;;
  h <- read_hash hash_size 0 text ;;
  let count := -1 in
  let count :=
    if (hash_size * 2 + 1 <? length text)%nat
    then match from_chars (skipn (hash_size * 2 + 1) text) with
         | Some v => v
         | None => count
         end
    else count in
  Some (mk_pawned_pw h count).

(** The password hash used as an example in the documentation:
    SHA-1 of "P@ssw0rd". *)
Definition sample_hash : list Z :=
  [0x21; 0xBD; 0x12; 0xDC; 0x18; 0x3F; 0x74; 0x0E; 0xE7; 0x6F;
   0x27; 0xB7; 0x8E; 0xB3; 0x9C; 0x8A; 0xD9; 0x72; 0xA7; 0x57].

(** Modelled from the spec: [arrcmp::array_compare] of [arrcmp.hpp], which
    is not part of the sources at hand.  The spec says "Ordering is
    lexicographic over the hash bytes, most-significant first": the arrays
    are walked from index 0 and the first differing byte decides.  The two
    arrays have the same static size. *)
Fixpoint array_compare_three_way (a b : list Z) : comparison :=
  match a, b with
  | x :: a', y :: b' =>
      match x ?= y with
      | Eq => array_compare_three_way a' b'
      | c => c
      end
  | _, _ => Eq
  end.

(** Modelled from the spec: [arrcmp::array_compare] with [arrcmp::equal],
    "equality of records requires hash equality". *)
Fixpoint array_compare_equal (a b : list Z) : bool :=
  match a, b with
  | x :: a', y :: b' => (x =? y) && array_compare_equal a' b'
  | _, _ => true
  end.

(** [pawned_pw::operator<=>] and [pawned_pw::operator==]. *)
Definition pawned_pw_cmp (lhs rhs : pawned_pw) : comparison :=
  array_compare_three_way (hash lhs) (hash rhs).

Definition pawned_pw_eq (lhs rhs : pawned_pw) : bool :=
  array_compare_equal (hash lhs) (hash rhs).

(** ** src/download/queuemgt.cpp: write_lines *)

Definition LF : ascii := "010"%char.
Definition CR : ascii := "013"%char.

(** Unsigned 64-bit counters ([std::size_t], [unsigned long]). *)
Definition wrap64 (n : N) : N := (n mod 2 ^ 64)%N.

Definition npos : N := (2 ^ 64 - 1)%N.

(** [s.find_last_not_of(ch)]: the index of the last character different
    from [ch], [npos] when there is none. *)
Fixpoint find_last_not_of_from (s : list ascii) (ch : ascii) (i found : N) : N :=
  match s with
  | [] => found
  | c :: t =>
      find_last_not_of_from t ch (i + 1)%N (if Ascii.eqb c ch then found else i)
  end.

Definition find_last_not_of (s : list ascii) (ch : ascii) : N :=
  find_last_not_of_from s ch 0%N npos.

(** [s.erase(pos)]: drops everything from index [pos] on.  The call throws
    for [pos > s.size()], which [find_last_not_of(...) + 1] never is. *)
Definition erase (s : list ascii) (pos : N) : list ascii :=
  firstn (N.to_nat pos) s.

(** The characters [std::getline] extracts up to the next line feed, and
    what is left in the stream behind it. *)
Fixpoint read_line (ss : list ascii) : list ascii * list ascii :=
  match ss with
  | [] => ([], [])
  | c :: t =>
      if Ascii.eqb c LF then ([], t)
      else let '(line, rest) := read_line t in (c :: line, rest)
  end.

(** [std::getline(ss, line)] as a loop condition: it fails exactly when the
    stream has no character left. *)
Definition getline (ss : list ascii) : option (list ascii * list ascii) :=
  match ss with
  | [] => None
  | _ => Some (read_line ss)
  end.

(** The body of [write_lines] for one line that [getline] delivered. *)
Definition write_line (prefix line : list ascii)
    (out : list (list ascii)) (recordcount : N) : list (list ascii) * N :=
  if (0 <? length line)%nat then
    let prefixed_line := prefix ++ line in
    let prefixed_line :=
      erase prefixed_line (wrap64 (find_last_not_of prefixed_line CR + 1)) in
    (out ++ [prefixed_line], wrap64 (recordcount + 1))
  else (out, recordcount).

(** The [for] loop of [write_lines].  Every iteration consumes at least one
    character of the stream, so [fuel] = stream length + 1 is never
    exhausted. *)
Fixpoint write_lines_loop (fuel : nat) (prefix ss : list ascii)
    (out : list (list ascii)) (recordcount : N) : list (list ascii) * N :=
  match fuel with
  | O => (out, recordcount)
  | S f =>
      match getline ss with
      | None => (out, recordcount)
      | Some (line, ss') =>
          let '(out', rc') := write_line prefix line out recordcount in
          write_lines_loop f prefix ss' out' rc'
      end
  end.

(** [write_lines(write_fn, dl)]: the arguments [write_fn] is called with, in
    order, and the returned record count.  ([bytes_processed] is updated by
    the caller's model below.) *)
Definition write_lines (prefix buffer : list ascii) : list (list ascii) * N :=
  write_lines_loop (S (length buffer)) prefix buffer [] 0%N.

(** ** src/download/queuemgt.cpp: the two queues *)

(** Modelled from the spec: the download task of [download/download.hpp],
    which is not part of the sources at hand.  "Fields: prefix, buffer (raw
    response bytes), completion flag, transport handle"; [easy = None] is
    the null handle. *)
Record download := mk_download {
  prefix : list ascii;
  buffer : list ascii;
  complete : bool;
  easy : option nat
}.

(** Modelled from the spec: the two fields of [cli_config]
    ([download/shared.hpp], not part of the sources at hand) that queue
    management reads: the number of parallel downloads and the "upper
    exclusive prefix bound".  Like [next_prefix] they are taken to be
    [std::size_t], the type of the queue size they are compared with. *)
Record cli_config_t := mk_cli_config {
  parallel_max : N;
  prefix_limit : N
}.

(** The globals of [queuemgt.cpp] and [download/shared.hpp], with the trace
    of the calls made to [write_fn]. *)
Record queues := mk_queues {
  download_queue : list download;
  process_queue : list download;
  next_prefix : N;
  next_handle : nat;
  files_processed : N;
  bytes_processed : N;
  written : list (list ascii)
}.

(** [std::format("{:05X}", n)]: upper-case hexadecimal, padded with zeros
    on the left to at least five characters. *)
Definition format_05X (n : N) : list ascii :=
  let ds := map upper_hex_digit_char (digits 16 n) in
  repeat "0"%char (5 - length ds) ++ ds.

(** Modelled from the spec: [add_download] of [download/requests.cpp],
    which is not part of the sources at hand.  "Download task [...]
    created when enqueued": a fresh, incomplete task with an empty buffer
    and a new transport handle joins the back of the download queue. *)
Definition add_download (pfx : list ascii) (s : queues) : queues :=
  mk_queues
    (download_queue s ++ [mk_download pfx [] false (Some (next_handle s))])
    (process_queue s) (next_prefix s) (S (next_handle s))
    (files_processed s) (bytes_processed s) (written s).

Definition set_next_prefix (n : N) (s : queues) : queues :=
  mk_queues (download_queue s) (process_queue s) n (next_handle s)
    (files_processed s) (bytes_processed s) (written s).

Definition set_queues (dq pq : list download) (s : queues) : queues :=
  mk_queues dq pq (next_prefix s) (next_handle s)
    (files_processed s) (bytes_processed s) (written s).

(** The condition of the [while] loop of [fill_download_queue]. *)
Definition fill_continues (cfg : cli_config_t) (s : queues) : bool :=
  negb (N.of_nat (length (download_queue s)) =? parallel_max cfg)%N
  && negb (next_prefix s =? prefix_limit cfg)%N.

Fixpoint fill_loop (fuel : nat) (cfg : cli_config_t) (s : queues) : queues :=
  match fuel with
  | O => s
  | S f =>
      if fill_continues cfg s then
        let pfx := format_05X (next_prefix s) in
        let s := set_next_prefix (wrap64 (next_prefix s + 1)) s in
        fill_loop f cfg (add_download pfx s)
      else s
  end.

(** Number of increments that take [next_prefix] to [prefix_limit] in
    64-bit arithmetic: a bound on the iterations of the loop. *)
Definition prefix_distance (cfg : cli_config_t) (s : queues) : nat :=
  Z.to_nat ((Z.of_N (prefix_limit cfg) - Z.of_N (next_prefix s)) mod 2 ^ 64).

Definition fill_download_queue (cfg : cli_config_t) (s : queues) : queues :=
  fill_loop (prefix_distance cfg s) cfg s.

(** The [while] loop of [process_completed_download_queue_entries]. *)
Fixpoint shuffle_loop (dq pq : list download) : list download * list download :=
  match dq with
  | [] => (dq, pq)
  | front :: rest =>
      if negb (complete front) then (dq, pq)
      else shuffle_loop rest (pq ++ [front])
  end.

(** The loop of [process_completed_download_queue_entries] and the call of
    [fill_download_queue] behind it. *)
Definition shuffle_and_fill (cfg : cli_config_t) (s : queues) : queues :=
  let '(dq, pq) := shuffle_loop (download_queue s) (process_queue s) in
  fill_download_queue cfg (set_queues dq pq s).

(** [process_completed_download_queue_entries].  Ahead of its loop the
    function prints [download_queue.front()->complete]: on an empty queue
    that access has no defined result, [None].  [service_queue] calls the
    function inside [while (!download_queue.empty())] only. *)
Definition process_completed_download_queue_entries
    (cfg : cli_config_t) (s : queues) : option queues :=
  match download_queue s with
  | [] => None
  | _ :: _ => Some (shuffle_and_fill cfg s)
  end.

(** One iteration of the loop of [write_completed_process_queue_entries]:
    [write_lines] on the front task, then pop. *)
Definition write_front (front : download) (rest : list download)
    (s : queues) : queues :=
  let '(calls, _) := write_lines (prefix front) (buffer front) in
  mk_queues (download_queue s) rest (next_prefix s) (next_handle s)
    (wrap64 (files_processed s + 1))
    (wrap64 (bytes_processed s + N.of_nat (length (buffer front))))
    (written s ++ calls).

Fixpoint write_loop (pq : list download) (s : queues) : queues :=
  match pq with
  | [] => s
  | front :: rest => write_loop rest (write_front front rest s)
  end.

Definition write_completed_process_queue_entries (s : queues) : queues :=
  write_loop (process_queue s) s.

(** A response buffer is a byte vector in memory: its size stays below the
    [max_size] of a 64-bit platform. *)
Definition buffer_fits (d : download) : Prop :=
  (N.of_nat (length (buffer d)) < 2 ^ 63)%N.

(** Modelled from the spec: what the transport thread
    ([download/requests.cpp], not part of the sources at hand) may do to the
    download queue while it holds the turn: "marks tasks complete with
    response bytes".  It never adds, removes, reorders or renames tasks. *)
Definition transport (s s' : queues) : Prop :=
  Forall2 (fun d d' => prefix d = prefix d') (download_queue s) (download_queue s')
  /\ Forall buffer_fits (download_queue s')
  /\ process_queue s' = process_queue s
  /\ next_prefix s' = next_prefix s
  /\ next_handle s' = next_handle s
  /\ files_processed s' = files_processed s
  /\ bytes_processed s' = bytes_processed s
  /\ written s' = written s.

(** The steps of a downloader run.  One turn of [service_queue] is a
    transport step, [process_completed_download_queue_entries], then one
    [write_front] per entry of the process queue; the transport thread runs
    on while the writer writes, on data the writer does not touch. *)
Inductive step (cfg : cli_config_t) : queues -> queues -> Prop :=
| step_transport s s' :
    transport s s' -> step cfg s s'
| step_shuffle s s' :
    process_completed_download_queue_entries cfg s = Some s' ->
    step cfg s s'
| step_write s front rest :
    process_queue s = front :: rest ->
    step cfg s (write_front front rest s).

Inductive reachable (cfg : cli_config_t) (s0 : queues) : queues -> Prop :=
| reach_start : reachable cfg s0 s0
| reach_step s s' : reachable cfg s0 s -> step cfg s s' -> reachable cfg s0 s'.

(** The state [run_threads] starts the threads in: both queues empty, then
    the first [fill_download_queue]. *)
Definition initial (cfg : cli_config_t) (start_prefix : N) : queues :=
  fill_download_queue cfg (mk_queues [] [] start_prefix 0 0 0 []).

(** ** src/download/queuemgt.cpp: run_threads *)

(** An exception object.  [catch (const std::exception&)] only catches the
    first kind. *)
Inductive exception :=
| std_exception (what : list ascii)
| foreign_exception.

(** What [run_threads] does to the outside world, in order. *)
Inductive effect :=
| cerr_write (msg : list ascii)
| event_base_loopbreak
| curl_multi_remove_handle (h : nat)
| curl_easy_cleanup (h : nat)
| shutdown_curl_and_events.

(** [thrnames[thr_id]]: [std::map::operator[]] yields the empty string for
    a key that is absent. *)
Definition thrname (thrnames : gmap nat (list ascii)) (thr_id : nat) : list ascii :=
  match thrnames !! thr_id with
  | Some name => name
  | None => []
  end.

(** [handle_exception]: [inl e] when [e] leaves the function, otherwise the
    returned flag and what was written to [std::cerr]. *)
Definition handle_exception (thrnames : gmap nat (list ascii))
    (exception_ptr : option exception) (thr_id : nat)
    : exception + (bool * list effect) :=
  match exception_ptr with
  | Some (std_exception what) =>
      inr (true,
           [cerr_write (str "Caught exception in " ++ thrname thrnames thr_id
                        ++ str " thread: " ++ what ++ [LF])])
  | Some foreign_exception => inl foreign_exception
  | None => inr (false, [])
  end.

(** The loop of [run_threads] that empties the download queue.
    [remove_result h] is what [curl_multi_remove_handle] answers for [h]:
    [None] for [CURLM_OK], else the text of [curl_multi_strerror]. *)
Fixpoint release_loop (remove_result : nat -> option (list ascii))
    (dq : list download) : list effect * list download :=
  match dq with
  | [] => ([], dq)
  | dl :: rest =>
      let here :=
        match easy dl with
        | Some h =>
            curl_multi_remove_handle h ::
            match remove_result h with
            | Some err =>
                [cerr_write (str "error in curl_multi_remove_handle(): '"
                             ++ err ++ str "'" ++ [LF])]
            | None => []
            end ++ [curl_easy_cleanup h]
        | None => []
        end in
      let '(later, dq') := release_loop remove_result rest in
      (here ++ later, dq')
  end.

Definition abort_message : list ascii :=
  str "Thread exceptions thrown as above. Sorry, we are aborting. You can try rerunning with `--resume`".

Record run_result := mk_run_result {
  effects : list effect;
  queue_left : list download;
  thrown : option exception      (* [None]: [run_threads] returns *)
}.

(** [run_threads] from [requests_thread.join()] on.  The two slots hold
    what the threads left there, [dq] is the download queue at the join;
    [thrnames0] is the name table before the two names are entered. *)
Definition run_threads (thrnames0 : gmap nat (list ascii))
    (que_thr_id req_thr_id : nat)
    (requests_exception queuemgt_exception : option exception)
    (remove_result : nat -> option (list ascii))
    (dq : list download) : run_result :=
  let thrnames := <[que_thr_id := str "queuemgt"]> thrnames0 in
  let thrnames := <[req_thr_id := str "requests"]> thrnames in
  match handle_exception thrnames requests_exception req_thr_id with
  | inl e => mk_run_result [] dq (Some e)
  | inr (ex_requests, log1) =>
      match handle_exception thrnames queuemgt_exception que_thr_id with
      | inl e => mk_run_result log1 dq (Some e)
      | inr (ex_queuemgt, log2) =>
          if ex_requests || ex_queuemgt then
            let '(released, dq') := release_loop remove_result dq in
            mk_run_result
              (log1 ++ log2 ++ event_base_loopbreak :: released
               ++ [shutdown_curl_and_events])
              dq' (Some (std_exception abort_message))
          else
            mk_run_result (log1 ++ log2 ++ [shutdown_curl_and_events]) dq None
      end
  end.

(** ** app/hibp_server.cpp and app/hibp.cpp *)

Definition EXIT_SUCCESS : Z := 0.
Definition EXIT_FAILURE : Z := 1.

(** [CLI::Range(min, max)] of the CLI11 library on an unsigned 32-bit
    option: the text must convert to the type and lie in [min, max],
    bounds included. *)
Definition Range (min max : Z) (input : Z) : bool :=
  ((0 <=? input) && (input <? 2 ^ 32)) && ((min <=? input) && (input <=? max)).

(** The check [define_options] attaches to [--threads]:
    [->check(CLI::Range(1U, cli.threads))], where [cli.threads] still holds
    its default when the options are defined. *)
Definition threads_check (cli_threads : Z) (input : Z) : bool :=
  Range 1 cli_threads input.

(** Modelled from the spec: the fields of [hibp::srv::cli_config_t]
    ([srv/server.hpp], not part of the sources at hand) that [main] and
    [prep_sources] read. *)
Record srv_cli_config_t := mk_srv_cli {
  sha1_db_filename : list ascii;
  ntlm_db_filename : list ascii;
  sha1t64_db_filename : list ascii;
  binfuse16_filter_filename : list ascii;
  binfuse8_filter_filename : list ascii;
  toc : bool;
  toc_bits : Z
}.

(** [CLI11_PARSE(app, argc, argv)]: either the configuration is filled in,
    or [main] returns [app.exit(e)], the exit code the library assigns to
    the parse error [e]. *)
Inductive parse_outcome :=
| parsed (cli : srv_cli_config_t)
| parse_error (exit_code : Z).

Definition is_empty (s : list ascii) : bool :=
  match s with [] => true | _ => false end.

Inductive source_kind := sha1_db | ntlm_db | sha1t64_db | binfuse8_filter | binfuse16_filter.

Section Server.
(** The collaborators of [main]: opening a database or a filter, building
    a table of contents and running the server either return or throw. *)
Variable open_source : source_kind -> list ascii -> option exception.
Variable toc_build : source_kind -> list ascii -> Z -> option exception.
Variable run_server : srv_cli_config_t -> option exception.

(** Sequencing of statements that may throw: [Some e] is the exception in
    flight. *)
Definition and_then (a : option exception) (b : option exception) :=
  match a with Some e => Some e | None => b end.

Definition prep_db (kind : source_kind) (db_filename : list ascii)
    (use_toc : bool) (bits : Z) : option exception :=
  and_then (open_source kind db_filename)
    (if use_toc then toc_build kind db_filename bits else None).

Definition prep_filter (kind : source_kind) (db_filename : list ascii)
    : option exception :=
  open_source kind db_filename.

Definition when_set (name : list ascii) (act : option exception) :=
  if negb (is_empty name) then act else None.

Definition prep_sources (cli : srv_cli_config_t) : option exception :=
  and_then (when_set (sha1_db_filename cli)
              (prep_db sha1_db (sha1_db_filename cli) (toc cli) (toc_bits cli)))
 (and_then (when_set (ntlm_db_filename cli)
              (prep_db ntlm_db (ntlm_db_filename cli) (toc cli) (toc_bits cli)))
 (and_then (when_set (sha1t64_db_filename cli)
              (prep_db sha1t64_db (sha1t64_db_filename cli) (toc cli) (toc_bits cli)))
 (and_then (when_set (binfuse8_filter_filename cli)
              (prep_filter binfuse8_filter (binfuse8_filter_filename cli)))
           (when_set (binfuse16_filter_filename cli)
              (prep_filter binfuse16_filter (binfuse16_filter_filename cli)))))).

Definition no_source (cli : srv_cli_config_t) : bool :=
  is_empty (sha1_db_filename cli) && is_empty (ntlm_db_filename cli)
  && is_empty (sha1t64_db_filename cli)
  && is_empty (binfuse16_filter_filename cli)
  && is_empty (binfuse8_filter_filename cli).

(** The [try] block of the server's [main]. *)
Definition server_try (cli : srv_cli_config_t) : option exception :=
  and_then
    (if no_source cli
     then Some (std_exception
                  (str "You must one of --sha1-db, --ntlm-db or --sha1t64-db"))
     else None)
    (and_then (prep_sources cli) (run_server cli)).

(** [main] of [hibp_server.cpp]: [Some code] is the value returned,
    [None] an exception that leaves [main] (not a [std::exception]). *)
Definition server_main (args : parse_outcome) : option Z :=
  match args with
  | parse_error exit_code => Some exit_code
  | parsed cli =>
      match server_try cli with
      | Some (std_exception _) => Some EXIT_FAILURE
      | Some foreign_exception => None
      | None => Some EXIT_SUCCESS
      end
  end.
End Server.

Definition dummy_pw : pawned_pw := mk_pawned_pw [] 0.

(** [std::lower_bound(first, last, value)] with [operator<] derived from
    [operator<=>]: the usual halving loop over [count] positions from
    [first]. *)
Fixpoint lower_bound_loop (fuel : nat) (db : list pawned_pw)
    (first cnt : nat) (value : pawned_pw) : nat :=
  match fuel with
  | O => first
  | S f =>
      if (0 <? cnt)%nat then
        let step := (cnt / 2)%nat in
        let it := (first + step)%nat in
        match pawned_pw_cmp (nth it db dummy_pw) value with
        | Lt => lower_bound_loop f db (S it) (cnt - (step + 1))%nat value
        | _ => lower_bound_loop f db first step value
        end
      else first
  end.

Definition lower_bound (db : list pawned_pw) (value : pawned_pw) : nat :=
  lower_bound_loop (S (length db)) db 0 (length db) value.

Section Search.
(** The collaborators of the search tool: the [flat_file_db] constructor,
    which returns the records of the file or throws, and the SHA-1
    primitive, which yields 40 hex digits. *)
Variable open_db : list ascii -> exception + list pawned_pw.
Variable sha1_final : list ascii -> list ascii.

(** The [try] block of [main] in [hibp.cpp]: [None] is a failed
    assertion, [inl e] the exception in flight at the end of the block,
    [inr out] what was written to [std::cout]. *)
Definition hibp_try (argv : list (list ascii))
    : option (exception + list (list ascii)) :=
  if (length argv <? 3)%nat then
    Some (inl (std_exception
                 (str "USAGE: " ++ nth 0 argv []
                  ++ str " dbfile.bin plaintext_password")))
  else
    match open_db (nth 1 argv []) with
    | inl e => Some (inl e)
    | inr db =>
        needle <- convert_to_binary (sha1_final (nth 2 argv [])) ;;
        let iter := lower_bound db needle in
        let maybe_ppw :=
          if (iter <? length db)%nat
             && pawned_pw_eq (nth iter db dummy_pw) needle
          then Some (nth iter db dummy_pw) else None in
        needle_text <- to_string needle ;;
        match maybe_ppw with
        | Some ppw =>
            found_text <- to_string ppw ;;
            Some (inr [str "needle = " ++ needle_text ++ [LF];
                       str "found  = " ++ found_text ++ [LF]])
        | None =>
            Some (inr [str "needle = " ++ needle_text ++ [LF];
                       str "not found" ++ [LF]])
        end
    end.

Record exit := mk_exit {
  exit_code : Z;
  cout : list (list ascii);
  cerr : list (list ascii)
}.

(** [main] of [hibp.cpp]: the [catch] clause prints and falls through to
    the one [return EXIT_SUCCESS].  [None]: the process is aborted by a
    failed assertion or an exception that is not a [std::exception].  The
    line the timer prints is left out. *)
Definition hibp_main (argv : list (list ascii)) : option exit :=
  match hibp_try argv with
  | None => None
  | Some (inl (std_exception what)) =>
      Some (mk_exit EXIT_SUCCESS []
              [str "something went wrong: " ++ what ++ [LF]])
  | Some (inl foreign_exception) => None
  | Some (inr out) => Some (mk_exit EXIT_SUCCESS out [])
  end.
End Search.

(** ** Notions the properties are stated with *)

(** *** Hex digits *)

(** The digits [to_string] writes: 0-9 and A-F. *)
Definition is_upper_hex (c : ascii) : bool :=
  let n := N_of_ascii c in
  ((48 <=? n) && (n <=? 57) || (65 <=? n) && (n <=? 70))%N.

(** The digits 0-9 and a-f. *)
Definition is_lower_hex (c : ascii) : bool :=
  let n := N_of_ascii c in
  ((48 <=? n) && (n <=? 57) || (97 <=? n) && (n <=? 102))%N.

(** "an upper- or lowercase sha1 hexstr". *)
Definition is_hex_digit (c : ascii) : bool := is_upper_hex c || is_lower_hex c.

(** The value of a hex digit, written without reference to the parser. *)
Definition hex_digit_val (c : ascii) : Z :=
  let n := Z.of_N (N_of_ascii c) in
  if n <=? 57 then n - 48 else if n <=? 70 then n - 55 else n - 87.

(** The lower-case counterpart of [upper_hex_digit_char]. *)
Definition lower_hex_digit_char (d : N) : ascii :=
  if (d <? 10)%N then ascii_of_N (48 + d) else ascii_of_N (97 + d - 10).

(** The text behind a number does not go on with a digit. *)
Definition no_digit_ahead (rest : list ascii) : Prop :=
  match rest with
  | [] => True
  | c :: _ => is_dec_digit c = false
  end.

(** The byte that characters [2k] and [2k + 1] of a hex text denote. *)
Definition byte_at (text : list ascii) (k : nat) : Z :=
  16 * hex_digit_val (char_at text (2 * k))
  + hex_digit_val (char_at text (2 * k + 1)).

(** Bytes rendered as two characters each, and read back pair by pair. *)
Definition render (c1 c2 : Z -> ascii) (h : list Z) : list ascii :=
  flat_map (fun b => [c1 b; c2 b]) h.

(** The hex digit of the low nibble of a byte. *)
Definition low_nibble_char (b : Z) : ascii :=
  upper_hex_digit_char (Z.to_N (b mod 16)).

(** *** Order on hashes *)

(** Lexicographic order on byte strings, first byte most significant. *)
Inductive lex_lt : list Z -> list Z -> Prop :=
| lex_lt_here x y a b : x < y -> lex_lt (x :: a) (y :: b)
| lex_lt_next x a b : lex_lt a b -> lex_lt (x :: a) (x :: b).

(** The number a byte string denotes when its first byte is the most
    significant one. *)
Fixpoint be_value (h : list Z) : Z :=
  match h with
  | [] => 0
  | x :: t => x * 256 ^ Z.of_nat (length t) + be_value t
  end.

(** The sample hash with its last byte raised by one. *)
Definition sample_hash_next : list Z :=
  [0x21; 0xBD; 0x12; 0xDC; 0x18; 0x3F; 0x74; 0x0E; 0xE7; 0x6F;
   0x27; 0xB7; 0x8E; 0xB3; 0x9C; 0x8A; 0xD9; 0x72; 0xA7; 0x58].

(** *** Lines of a buffer *)

(** The pieces of a buffer between line feeds. *)
Fixpoint split_lf (s : list ascii) : list (list ascii) :=
  match s with
  | [] => [[]]
  | c :: t =>
      if Ascii.eqb c LF then [] :: split_lf t
      else match split_lf t with
           | l :: ls => (c :: l) :: ls
           | [] => [[c]]
           end
  end.

(** [line.size() > 0]. *)
Definition nonempty (l : list ascii) : bool :=
  match l with [] => false | _ => true end.

(** A line without its trailing carriage returns. *)
Fixpoint strip_trailing_cr (l : list ascii) : list ascii :=
  match l with
  | [] => []
  | c :: t =>
      match strip_trailing_cr t with
      | [] => if Ascii.eqb c CR then [] else [c]
      | t' => c :: t'
      end
  end.

(** The non-empty lines of a buffer, each behind the prefix and without
    trailing carriage returns. *)
Definition records_of (pfx buffer : list ascii) : list (list ascii) :=
  map (fun l => pfx ++ strip_trailing_cr l) (filter nonempty (split_lf buffer)).

(** A line starts at the beginning of the buffer or behind a line feed. *)
Definition line_start (before : list ascii) : Prop :=
  before = [] \/ exists b, before = b ++ [LF].

(** *** Sample data and the traces of [run_threads] *)

(** A server configuration with the SHA-1 database only. *)
Definition sample_cli : srv_cli_config_t :=
  mk_srv_cli (str "hibp_all.sha1.bin") [] [] [] [] false 20.


(** The non-null transport handles of the tasks of a queue, in queue
    order. *)
Definition handles_of (dq : list download) : list nat :=
  flat_map (fun dl => match easy dl with Some h => [h] | None => [] end) dq.

(** The handles a trace takes out of the multi handle, and those it cleans
    up, in order. *)
Definition removed_handles (effs : list effect) : list nat :=
  flat_map (fun e => match e with curl_multi_remove_handle h => [h] | _ => [] end)
           effs.

Definition cleaned_handles (effs : list effect) : list nat :=
  flat_map (fun e => match e with curl_easy_cleanup h => [h] | _ => [] end) effs.

(** Three tasks in flight, the second without a transport handle. *)
Definition two_tasks : list download :=
  [mk_download (str "00000") [] false (Some 0%nat);
   mk_download (str "00001") [] false None;
   mk_download (str "00002") [] false (Some 2%nat)].


(** *** Prefixes and the state of a run *)

(** The number a string of hex digits denotes. *)
Definition prefix_value (s : list ascii) : N :=
  of_digits 16 (map (fun c => Z.to_N (hex_digit_val c)) s).

(** [download_queue.size()]. *)
Definition queue_size (s : queues) : N := N.of_nat (length (download_queue s)).

(** The prefixes [n], [n + 1], ..., [n + k - 1] as the queue holds them. *)
Definition prefixes_from (n : N) (k : nat) : list (list ascii) :=
  map (fun i => format_05X (N.of_nat i)) (seq (N.to_nat n) k).

(** A task as [add_download] creates it. *)
Definition fresh (d : download) : Prop := buffer d = [] /\ complete d = false.

(** Three parallel downloads, all 2^20 prefixes. *)
Definition sample_cfg : cli_config_t := mk_cli_config 3 0x100000.

(** One download in flight, two prefixes left. *)
Definition sample_queues : queues :=
  mk_queues [mk_download (str "FFFFD") [] false (Some 0%nat)] [] 0xFFFFE 1 0 0 [].

(** The calls to [write_fn] that writing one task makes. *)
Definition task_records (d : download) : list (list ascii) :=
  fst (write_lines (prefix d) (buffer d)).

(** The prefix a written record starts with, as a number. *)
Definition record_prefix (r : list ascii) : N := prefix_value (firstn 5 r).

(** What holds in every state of a run that started at [start]: the tasks
    written so far ([done]), those waiting to be written and those being
    downloaded carry, in this order, the consecutive prefixes from
    [start] up to [next_prefix]. *)
Record run_invariant (cfg : cli_config_t) (start : N) (s : queues)
    (done : list download) : Prop := mk_run_invariant {
  inv_prefixes :
    map prefix (done ++ process_queue s ++ download_queue s)
    = prefixes_from start (length (done ++ process_queue s ++ download_queue s));
  inv_next :
    next_prefix s
    = (start + N.of_nat (length (done ++ process_queue s ++ download_queue s)))%N;
  inv_limit : (next_prefix s <= prefix_limit cfg)%N;
  inv_written : written s = flat_map task_records done;
  inv_fits : Forall buffer_fits (done ++ process_queue s ++ download_queue s)
}.

(** A short run: two tasks are downloaded, moved and written. *)
Definition run_fetched : queues :=
  mk_queues
    [mk_download (str "FFFFE") (str "A:1" ++ [CR; LF] ++ str "B:2" ++ [CR; LF])
                 true (Some 0%nat);
     mk_download (str "FFFFF") (str "C:3") true (Some 1%nat)]
    [] 0x100000 2 0 0 [].

(** ... after [process_completed_download_queue_entries], and after each of
    the two writes. *)
Definition run_moved : queues :=
  shuffle_and_fill sample_cfg run_fetched.

Definition run_first_written : queues :=
  write_front
    (mk_download (str "FFFFE") (str "A:1" ++ [CR; LF] ++ str "B:2" ++ [CR; LF])
                 true (Some 0%nat))
    [mk_download (str "FFFFF") (str "C:3") true (Some 1%nat)]
    run_moved.

Definition run_all_written : queues :=
  write_front (mk_download (str "FFFFF") (str "C:3") true (Some 1%nat)) []
    run_first_written.

(** *** What the hex parser accepts *)

(** The characters from the digit 0 to the letter F and from the letter W
    to the letter f, in ASCII order. *)
Definition make_nibble_accepts (c : ascii) : bool :=
  let n := N_of_ascii c in
  ((48 <=? n) && (n <=? 70) || (87 <=? n) && (n <=? 102))%N.

(** Each of the first [n] characters of a text is one [make_nibble]
    accepts. *)
Definition accepted_prefix (n : nat) (text : list ascii) : Prop :=
  forall j, (j < n)%nat -> make_nibble_accepts (char_at text j) = true.

(** *** The upstream format *)

(** One line of a range response, "<35 hex digits>:<count>" ended by
    carriage return and line feed. *)
Definition upstream_line (entry : list ascii * Z) : list ascii :=
  fst entry ++ ":"%char :: to_chars (snd entry) ++ [CR; LF].

Definition upstream_body (entries : list (list ascii * Z)) : list ascii :=
  flat_map upstream_line entries.

(** The record the writer is handed for such a line. *)
Definition upstream_record (pfx : list ascii) (entry : list ascii * Z)
    : list ascii :=
  pfx ++ fst entry ++ ":"%char :: to_chars (snd entry).

(** A suffix of 35 hex digits with a 32-bit count. *)
Definition upstream_entry_ok (entry : list ascii * Z) : Prop :=
  length (fst entry) = 35%nat
  /\ forallb is_hex_digit (fst entry) = true
  /\ INT32_MIN <= snd entry <= INT32_MAX.

(** Two lines of the range 21BD1, the second in lower case. *)
Definition sample_entries : list (list ascii * Z) :=
  [(str "2DC183F740EE76F27B78EB39C8AD972A757", 52579);
   (str "2dc183f740ee76f27b78eb39c8ad972a758", 3)].

(** *** Counters of the writer *)

(** The bytes of the buffers of a list of tasks. *)
Definition total_bytes (tasks : list download) : N :=
  fold_right (fun d acc => (N.of_nat (length (buffer d)) + acc)%N) 0%N tasks.

(** A state in which the transport thread has fetched the one task in
    flight and another, already fetched, waits to be written. *)
Definition sample_busy : queues :=
  mk_queues
    [mk_download (str "FFFFE") (str "C:3") true (Some 1%nat);
     mk_download (str "FFFFF") [] false (Some 2%nat)]
    [mk_download (str "FFFFD") (str "A:1" ++ [CR; LF]) true (Some 0%nat)]
    0x100000 3 7 100 [].

(** More tasks in the queue than [parallel_max] allows. *)
Definition sample_overfull : queues :=
  mk_queues
    [mk_download (str "FFFF9") [] false None;
     mk_download (str "FFFFA") [] false None;
     mk_download (str "FFFFB") [] false None;
     mk_download (str "FFFFC") [] false None]
    [] 0xFFFFD 0 0 0 [].

(** *** Traces and sources *)

(** The lines a trace writes to [std::cerr], in order. *)
Definition cerr_lines (effs : list effect) : list (list ascii) :=
  flat_map (fun e => match e with cerr_write msg => [msg] | _ => [] end) effs.

(** The line [run_threads] prints when [curl_multi_remove_handle] fails
    with the error text [err]. *)
Definition remove_error_line (err : list ascii) : list ascii :=
  str "error in curl_multi_remove_handle(): '" ++ err ++ str "'" ++ [LF].

(** The sources a configuration names, in the order [prep_sources] goes
    through them. *)
Definition configured (cli : srv_cli_config_t) : list (source_kind * list ascii) :=
  filter (fun src => negb (is_empty (snd src)))
    [(sha1_db, sha1_db_filename cli);
     (ntlm_db, ntlm_db_filename cli);
     (sha1t64_db, sha1t64_db_filename cli);
     (binfuse8_filter, binfuse8_filter_filename cli);
     (binfuse16_filter, binfuse16_filter_filename cli)].

(** The databases, as opposed to the filters. *)
Definition is_db (kind : source_kind) : bool :=
  match kind with
  | sha1_db | ntlm_db | sha1t64_db => true
  | binfuse8_filter | binfuse16_filter => false
  end.

(** A remove that fails for handle 2 only. *)
Definition sample_remove (h : nat) : option (list ascii) :=
  if (h =? 2)%nat then Some (str "Invalid easy handle") else None.

(** The SHA-1 database and the 8-bit filter, with a table of contents. *)
Definition sample_cli_toc : srv_cli_config_t :=
  mk_srv_cli (str "sha1.bin") [] [] [] (str "filter8.bin") true 20.

(** A source is ready: it opens and, for a database under [--toc], its
    table of contents builds. *)
Definition source_is_ready
    (open_source : source_kind -> list ascii -> option exception)
    (toc_build : source_kind -> list ascii -> Z -> option exception)
    (cli : srv_cli_config_t) (src : source_kind * list ascii) : Prop :=
  open_source (fst src) (snd src) = None
  /\ (toc cli = true -> is_db (fst src) = true ->
      toc_build (fst src) (snd src) (toc_bits cli) = None).

(** *** Searching the database *)

(** The hash of a record as a number, first byte most significant. *)
Definition key (r : pawned_pw) : Z := be_value (hash r).

(** The records of a database are in ascending order of their hashes. *)
Definition sorted_db (db : list pawned_pw) : Prop :=
  forall i j, (i <= j < length db)%nat ->
              key (nth i db dummy_pw) <= key (nth j db dummy_pw).

(** A database of three records, and a hash between its last two. *)
Definition sample_db : list pawned_pw :=
  [mk_pawned_pw (map (fun b => 17 * (b mod 16)) sample_hash) 11;
   mk_pawned_pw sample_hash 5;
   mk_pawned_pw sample_hash_next 1].

(** *** A run with the tasks it writes *)

(** The states of a run as [reachable] has them, each with the tasks
    written so far: every write step records the task it takes off the
    process queue, as it is at that moment. *)
Inductive run_writes (cfg : cli_config_t) (s0 : queues)
    : queues -> list download -> Prop :=
| rw_start : run_writes cfg s0 s0 []
| rw_transport s s' done :
    run_writes cfg s0 s done -> transport s s' -> run_writes cfg s0 s' done
| rw_shuffle s s' done :
    run_writes cfg s0 s done ->
    process_completed_download_queue_entries cfg s = Some s' ->
    run_writes cfg s0 s' done
| rw_write s front rest done :
    run_writes cfg s0 s done -> process_queue s = front :: rest ->
    run_writes cfg s0 (write_front front rest s) (done ++ [front]).

(** The two tasks of the short run, as they were written. *)
Definition run_written_tasks : list download :=
  [mk_download (str "FFFFE") (str "A:1" ++ [CR; LF] ++ str "B:2" ++ [CR; LF])
               true (Some 0%nat);
   mk_download (str "FFFFF") (str "C:3") true (Some 1%nat)].

(** * Properties *)

(** ** Sample evaluations *)

Example to_string_sample :
  to_string (mk_pawned_pw sample_hash 5)
  = Some (str "11DD22CC88FF44EE77FF7777EE33CCAA99227777:5").
Proof. vm_compute. reflexivity. Qed.

Example write_lines_sample :
  write_lines (str "00000")
    (str "A:1" ++ [CR; LF; LF; CR; LF] ++ str "B:2" ++ [CR; CR])
  = ([str "00000A:1"; str "00000"; str "00000B:2"], 3%N).
Proof. vm_compute. reflexivity. Qed.

Example fill_sample :
  map prefix (download_queue (initial (mk_cli_config 3 0x100000) 0xFFFFE))
  = [str "FFFFE"; str "FFFFF"].
Proof. vm_compute. reflexivity. Qed.

(** ** Finite case analysis by evaluation *)

Lemma N_below_forallb (P : N -> bool) (n : nat) :
  forallb P (map N.of_nat (seq 0 n)) = true ->
  forall d, (d < N.of_nat n)%N -> P d = true.
Proof.
  intros Hall d Hd.
  rewrite forallb_forall in Hall. apply Hall.
  apply in_map_iff. exists (N.to_nat d). split; [lia|].
  apply in_seq. lia.
Qed.

Lemma ascii_forallb (P : ascii -> bool) :
  forallb P (map (fun n => ascii_of_N (N.of_nat n)) (seq 0 256)) = true ->
  forall c, P c = true.
Proof.
  intros Hall c.
  rewrite forallb_forall in Hall. apply Hall.
  apply in_map_iff. exists (N.to_nat (N_of_ascii c)). split.
  - rewrite N2Nat.id. apply ascii_N_embedding.
  - apply in_seq. pose proof (N_ascii_bounded c). lia.
Qed.

(** ** The hex codec *)

Lemma make_nibble_hex c :
  is_hex_digit c = true -> make_nibble c = Some (hex_digit_val c).
Proof.
  revert c.
  assert (H : forall c,
             (if is_hex_digit c then
                match make_nibble c with
                | Some v => v =? hex_digit_val c
                | None => false
                end
              else true) = true).
  { apply ascii_forallb. vm_compute. reflexivity. }
  intros c Hc. specialize (H c). rewrite Hc in H.
  destruct (make_nibble c); [|discriminate].
  apply Z.eqb_eq in H. congruence.
Qed.

Lemma hex_digit_val_bound c :
  is_hex_digit c = true -> 0 <= hex_digit_val c < 16.
Proof.
  revert c.
  assert (H : forall c,
             (if is_hex_digit c
              then (0 <=? hex_digit_val c) && (hex_digit_val c <? 16)
              else true) = true).
  { apply ascii_forallb. vm_compute. reflexivity. }
  intros c Hc. specialize (H c). rewrite Hc in H. lia.
Qed.

Lemma upper_hex_digit_char_spec d :
  (d < 16)%N ->
  is_upper_hex (upper_hex_digit_char d) = true
  /\ hex_digit_val (upper_hex_digit_char d) = Z.of_N d.
Proof.
  intros Hd.
  assert (H : forall d, (d < N.of_nat 16)%N ->
             (is_upper_hex (upper_hex_digit_char d)
              && (hex_digit_val (upper_hex_digit_char d) =? Z.of_N d)) = true).
  { apply N_below_forallb. vm_compute. reflexivity. }
  specialize (H d Hd). apply andb_true_iff in H as [H1 H2].
  apply Z.eqb_eq in H2. auto.
Qed.

Lemma lower_hex_digit_char_spec d :
  (d < 16)%N ->
  is_lower_hex (lower_hex_digit_char d) = true
  /\ hex_digit_val (lower_hex_digit_char d) = Z.of_N d.
Proof.
  intros Hd.
  assert (H : forall d, (d < N.of_nat 16)%N ->
             (is_lower_hex (lower_hex_digit_char d)
              && (hex_digit_val (lower_hex_digit_char d) =? Z.of_N d)) = true).
  { apply N_below_forallb. vm_compute. reflexivity. }
  specialize (H d Hd). apply andb_true_iff in H as [H1 H2].
  apply Z.eqb_eq in H2. auto.
Qed.

Lemma nibble_to_char_spec d :
  (d < 16)%N -> nibble_to_char (Z.of_N d) = Some (upper_hex_digit_char d).
Proof.
  intros Hd.
  assert (H : forall d, (d < N.of_nat 16)%N ->
             match nibble_to_char (Z.of_N d) with
             | Some c => Ascii.eqb c (upper_hex_digit_char d)
             | None => false
             end = true).
  { apply N_below_forallb. vm_compute. reflexivity. }
  specialize (H d Hd). destruct (nibble_to_char (Z.of_N d)); [|discriminate].
  apply Ascii.eqb_eq in H. congruence.
Qed.

Lemma lor_nibbles a b :
  0 <= a < 16 -> 0 <= b < 16 ->
  Z.lor (to_byte (Z.shiftl a 4)) b = 16 * a + b.
Proof.
  intros Ha Hb.
  assert (H : forall d, (d < N.of_nat 256)%N ->
             (Z.lor (to_byte (Z.shiftl (Z.of_N (d / 16)) 4)) (Z.of_N (d mod 16))
              =? Z.of_N d) = true).
  { apply N_below_forallb. vm_compute. reflexivity. }
  specialize (H (Z.to_N (16 * a + b))).
  assert (Hq : (Z.to_N (16 * a + b) / 16)%N = Z.to_N a).
  { apply N2Z.inj. rewrite N2Z.inj_div, !Z2N.id by lia.
    change (Z.of_N 16) with 16.
    symmetry. apply (Z.div_unique _ _ _ b); lia. }
  assert (Hr : (Z.to_N (16 * a + b) mod 16)%N = Z.to_N b).
  { apply N2Z.inj. rewrite N2Z.inj_mod, !Z2N.id by lia.
    change (Z.of_N 16) with 16.
    symmetry. apply (Z.mod_unique _ _ a); lia. }
  rewrite Hq, Hr, !Z2N.id in H by lia.
  apply Z.eqb_eq, H. lia.
Qed.

Lemma make_byte_hex c1 c2 :
  is_hex_digit c1 = true -> is_hex_digit c2 = true ->
  make_byte c1 c2 = Some (16 * hex_digit_val c1 + hex_digit_val c2).
Proof.
  intros H1 H2. unfold make_byte.
  rewrite (make_nibble_hex _ H1), (make_nibble_hex _ H2).
  f_equal. apply lor_nibbles; apply hex_digit_val_bound; assumption.
Qed.

(** ** Positional digits *)

Section Digits.
Variable base : N.
Hypothesis base_ge_2 : (2 <= base)%N.

Let f := fun a d : N => (a * base + d)%N.

Lemma digits_aux_value fuel : forall n acc,
  (n < base ^ N.of_nat fuel)%N ->
  fold_left f (digits_aux base fuel n acc) 0%N = fold_left f acc n.
Proof using base_ge_2.
  induction fuel as [|fuel IH]; intros n acc Hn.
  - simpl in *. assert (n = 0%N) by lia. subst. reflexivity.
  - cbn [digits_aux].
    pose proof (N.div_mod n base ltac:(lia)) as Hdm.
    pose proof (N.mod_lt n base ltac:(lia)) as Hlt.
    destruct (N.eqb_spec (n / base) 0) as [Hz|Hnz].
    + cbn [fold_left]. unfold f at 2. f_equal. lia.
    + rewrite IH.
      * cbn [fold_left]. unfold f at 2. f_equal. lia.
      * rewrite Nat2N.inj_succ, N.pow_succ_r' in Hn.
        apply N.Div0.div_lt_upper_bound. lia.
Qed.

Lemma digits_aux_bound fuel : forall n acc,
  Forall (fun d => (d < base)%N) acc ->
  Forall (fun d => (d < base)%N) (digits_aux base fuel n acc).
Proof using base_ge_2.
  induction fuel as [|fuel IH]; intros n acc Hacc; [exact Hacc|].
  cbn [digits_aux].
  assert (Forall (fun d => (d < base)%N) ((n mod base)%N :: acc)).
  { constructor; [apply N.mod_lt; lia | exact Hacc]. }
  destruct (n / base =? 0)%N; auto.
Qed.

Lemma digits_aux_length fuel : forall n acc k,
  (n < base ^ N.of_nat (S k))%N ->
  (length acc < length (digits_aux base (S fuel) n acc) <= S k + length acc)%nat.
Proof using base_ge_2.
  induction fuel as [|fuel IH]; intros n acc k Hn.
  - cbn [digits_aux]. destruct (n / base =? 0)%N; simpl; lia.
  - remember (S fuel) as fuel'. cbn [digits_aux].
    destruct (N.eqb_spec (n / base) 0) as [Hz|Hnz]; [simpl; lia|].
    subst fuel'.
    destruct k as [|k].
    + exfalso. apply Hnz. apply N.div_small.
      change (N.of_nat 1) with 1%N in Hn. rewrite N.pow_1_r in Hn. exact Hn.
    + specialize (IH (n / base)%N ((n mod base)%N :: acc) k).
      cbn [length] in IH.
      assert (Hq : (n / base < base ^ N.of_nat (S k))%N).
      { rewrite (Nat2N.inj_succ (S k)), N.pow_succ_r' in Hn.
        apply N.Div0.div_lt_upper_bound. lia. }
      specialize (IH Hq). lia.
Qed.

Lemma digits_fuel n : (n < base ^ N.of_nat (S (N.to_nat (N.log2 n))))%N.
Proof using base_ge_2.
  rewrite Nat2N.inj_succ, N2Nat.id.
  apply N.lt_le_trans with (2 ^ N.succ (N.log2 n))%N.
  - destruct (N.eq_dec n 0) as [->|Hn]; [reflexivity|].
    apply N.log2_spec. lia.
  - apply N.pow_le_mono_l. lia.
Qed.

Lemma of_digits_digits n : of_digits base (digits base n) = n.
Proof using base_ge_2.
  unfold of_digits, digits.
  change (fun a d : N => (a * base + d)%N) with f.
  rewrite digits_aux_value by apply digits_fuel. reflexivity.
Qed.

Lemma digits_bound n : Forall (fun d => (d < base)%N) (digits base n).
Proof using base_ge_2. apply digits_aux_bound. constructor. Qed.

Lemma digits_nonempty n : digits base n <> [].
Proof using base_ge_2.
  unfold digits.
  pose proof (digits_aux_length (N.to_nat (N.log2 n)) n []
                (N.to_nat (N.log2 n)) (digits_fuel n)) as H.
  intros E. rewrite E in H. cbn [length] in H. lia.
Qed.

Lemma digits_length n k :
  (n < base ^ N.of_nat (S k))%N -> (length (digits base n) <= S k)%nat.
Proof using base_ge_2.
  intros Hn. unfold digits.
  pose proof (digits_aux_length (N.to_nat (N.log2 n)) n [] k Hn) as H.
  cbn [length] in H. lia.
Qed.

Lemma of_digits_app ds1 ds2 :
  of_digits base (ds1 ++ ds2)
  = fold_left f ds2 (of_digits base ds1).
Proof using Type. unfold of_digits. apply fold_left_app. Qed.

Lemma of_digits_zeros k ds :
  of_digits base (repeat 0%N k ++ ds) = of_digits base ds.
Proof using Type.
  unfold of_digits. rewrite fold_left_app.
  f_equal. induction k as [|k IH]; [reflexivity|]. simpl. exact IH.
Qed.
End Digits.

(** ** Decimal counts: [std::from_chars] reads back what [std::to_chars]
    writes *)

Lemma dec_digit_char_spec d :
  (d < 10)%N ->
  is_dec_digit (dec_digit_char d) = true
  /\ dec_digit_val (dec_digit_char d) = d
  /\ Ascii.eqb (dec_digit_char d) "-" = false.
Proof.
  intros Hd.
  assert (H : forall d, (d < N.of_nat 10)%N ->
             (is_dec_digit (dec_digit_char d)
              && (dec_digit_val (dec_digit_char d) =? d)%N
              && negb (Ascii.eqb (dec_digit_char d) "-")) = true).
  { apply N_below_forallb. vm_compute. reflexivity. }
  specialize (H d Hd).
  apply andb_true_iff in H as [H H3]. apply andb_true_iff in H as [H1 H2].
  apply N.eqb_eq in H2. apply negb_true_iff in H3. auto.
Qed.

Lemma span_digits_render ds rest :
  Forall (fun d => (d < 10)%N) ds -> no_digit_ahead rest ->
  span_digits (map dec_digit_char ds ++ rest) = map dec_digit_char ds.
Proof.
  intros Hds Hrest. induction Hds as [|d ds Hd _ IH]; cbn [map app span_digits].
  - destruct rest as [|c rest]; [reflexivity|]. cbn [span_digits].
    unfold no_digit_ahead in Hrest. rewrite Hrest. reflexivity.
  - destruct (dec_digit_char_spec d Hd) as (-> & _ & _). rewrite IH. reflexivity.
Qed.

Lemma dec_digit_val_render ds :
  Forall (fun d => (d < 10)%N) ds ->
  map dec_digit_val (map dec_digit_char ds) = ds.
Proof.
  induction 1 as [|d ds Hd _ IH]; cbn [map]; [reflexivity|].
  destruct (dec_digit_char_spec d Hd) as (_ & -> & _). rewrite IH. reflexivity.
Qed.

Lemma from_chars_unsigned n rest neg :
  no_digit_ahead rest ->
  match span_digits (map dec_digit_char (digits 10 n) ++ rest) with
  | [] => None
  | ds =>
      let m := Z.of_N (of_digits 10 (map dec_digit_val ds)) in
      let v := if neg : bool then - m else m in
      if (INT32_MIN <=? v) && (v <=? INT32_MAX) then Some v else None
  end
  = let v := if neg then - Z.of_N n else Z.of_N n in
    if (INT32_MIN <=? v) && (v <=? INT32_MAX) then Some v else None.
Proof.
  intros Hrest.
  pose proof (digits_bound 10 ltac:(lia) n) as Hb.
  pose proof (digits_nonempty 10 ltac:(lia) n) as Hne.
  rewrite span_digits_render by assumption.
  destruct (map dec_digit_char (digits 10 n)) as [|c cs] eqn:E.
  { apply map_eq_nil in E. congruence. }
  rewrite <- E, dec_digit_val_render by assumption.
  rewrite of_digits_digits by lia. reflexivity.
Qed.

Lemma from_chars_to_chars v rest :
  INT32_MIN <= v <= INT32_MAX -> no_digit_ahead rest ->
  from_chars (to_chars v ++ rest) = Some v.
Proof.
  intros Hv Hrest. unfold from_chars, to_chars.
  destruct (Z.ltb_spec v 0) as [Hneg|Hpos].
  - cbn [app]. change (Ascii.eqb "-" "-") with true. cbv iota beta.
    rewrite (from_chars_unsigned _ rest true Hrest).
    cbv zeta. rewrite Z2N.id by lia. rewrite Z.opp_involutive.
    destruct (Z.leb_spec INT32_MIN v), (Z.leb_spec v INT32_MAX); simpl; try lia.
    reflexivity.
  - pose proof (digits_bound 10 ltac:(lia) (Z.to_N v)) as Hb.
    pose proof (digits_nonempty 10 ltac:(lia) (Z.to_N v)) as Hne.
    destruct (map dec_digit_char (digits 10 (Z.to_N v)) ++ rest)
      as [|c cs] eqn:E.
    { apply app_eq_nil in E as [E _]. apply map_eq_nil in E. congruence. }
    assert (Hc : Ascii.eqb c "-" = false).
    { destruct (digits 10 (Z.to_N v)) as [|d ds]; [congruence|].
      cbn [map app] in E. injection E as <- _.
      apply (dec_digit_char_spec d (Forall_inv Hb)). }
    rewrite Hc, <- E.
    rewrite (from_chars_unsigned _ rest false Hrest).
    cbv zeta. rewrite Z2N.id by lia.
    destruct (Z.leb_spec INT32_MIN v), (Z.leb_spec v INT32_MAX); simpl; try lia.
    reflexivity.
Qed.

Lemma to_chars_nonempty v : to_chars v <> [].
Proof.
  unfold to_chars. destruct (v <? 0); [discriminate|].
  pose proof (digits_nonempty 10 ltac:(lia) (Z.to_N v)).
  destruct (digits 10 (Z.to_N v)); [congruence|discriminate].
Qed.

(** ** [convert_to_binary] on hex text *)

Lemma read_hash_hex n : forall i text,
  (forall j, (2 * i <= j < 2 * (i + n))%nat ->
             is_hex_digit (char_at text j) = true) ->
  read_hash n i text = Some (map (byte_at text) (seq i n)).
Proof.
  induction n as [|n IH]; intros i text Hhex; [reflexivity|].
  cbn [read_hash seq map].
  rewrite make_byte_hex by (apply Hhex; lia).
  rewrite IH by (intros j Hj; apply Hhex; lia).
  reflexivity.
Qed.

Lemma hex_prefix_char_at text n j :
  forallb is_hex_digit (firstn n text) = true ->
  (n <= length text)%nat -> (j < n)%nat ->
  is_hex_digit (char_at text j) = true.
Proof.
  intros Hall Hlen Hj. rewrite forallb_forall in Hall. apply Hall.
  unfold char_at.
  rewrite <- (firstn_skipn n text) at 1.
  rewrite app_nth1 by (rewrite length_firstn; lia).
  apply nth_In. rewrite length_firstn. lia.
Qed.

Section Rendering.
Variables (c1 c2 : Z -> ascii) (g : Z -> Z).
Hypothesis pair_ok : forall b, make_byte (c1 b) (c2 b) = Some (g b).

Lemma render_length h : length (render c1 c2 h) = (2 * length h)%nat.
Proof using Type.
  unfold render. induction h as [|b h IH]; simpl in *; lia.
Qed.

Lemma read_hash_render h : forall i pre post,
  length pre = (2 * i)%nat ->
  read_hash (length h) i (pre ++ render c1 c2 h ++ post) = Some (map g h).
Proof using pair_ok.
  induction h as [|b h IH]; intros i pre post Hpre; [reflexivity|].
  cbn [length read_hash map].
  assert (E1 : char_at (pre ++ render c1 c2 (b :: h) ++ post) (2 * i) = c1 b).
  { unfold char_at. rewrite <- Hpre. cbn [render flat_map app].
    apply nth_middle. }
  assert (E2 : char_at (pre ++ render c1 c2 (b :: h) ++ post) (2 * i + 1) = c2 b).
  { unfold char_at. cbn [render flat_map app].
    replace (pre ++ c1 b :: c2 b :: flat_map (fun b => [c1 b; c2 b]) h ++ post)
      with ((pre ++ [c1 b]) ++ c2 b :: flat_map (fun b => [c1 b; c2 b]) h ++ post)
      by (rewrite <- app_assoc; reflexivity).
    replace (2 * i + 1)%nat with (length (pre ++ [c1 b]))
      by (rewrite length_app; simpl; lia).
    apply nth_middle. }
  rewrite E1, E2, pair_ok.
  replace (pre ++ render c1 c2 (b :: h) ++ post)
    with ((pre ++ [c1 b; c2 b]) ++ render c1 c2 h ++ post)
    by (cbn [render flat_map app]; rewrite <- app_assoc; reflexivity).
  rewrite IH by (rewrite length_app; simpl; lia).
  reflexivity.
Qed.

(** A rendered hash followed by a separator and a decimal count. *)
Lemma convert_to_binary_render h sep c :
  length h = hash_size -> INT32_MIN <= c <= INT32_MAX ->
  convert_to_binary (render c1 c2 h ++ sep :: to_chars c)
  = Some (mk_pawned_pw (map g h) c).
Proof using pair_ok.
  intros Hlen Hc. unfold convert_to_binary.
  assert (Hr : length (render c1 c2 h) = 40%nat)
    by (rewrite render_length, Hlen; reflexivity).
  assert (Hl : length (render c1 c2 h ++ sep :: to_chars c)
               = (41 + length (to_chars c))%nat)
    by (rewrite length_app, Hr; simpl; lia).
  pose proof (to_chars_nonempty c) as Hne.
  assert (0 < length (to_chars c))%nat
    by (destruct (to_chars c); [congruence | simpl; lia]).
  rewrite Hl. change (hash_size * 2)%nat with 40%nat.
  replace (40 <=? 41 + length (to_chars c))%nat with true
    by (symmetry; apply Nat.leb_le; lia).
  cbn [assert].
  pose proof (read_hash_render h 0 [] (sep :: to_chars c) eq_refl) as Hrd.
  cbn [app] in Hrd. rewrite Hlen in Hrd. rewrite Hrd.
  replace (40 + 1 <? 41 + length (to_chars c))%nat with true
    by (symmetry; apply Nat.ltb_lt; lia).
  replace (skipn (40 + 1) (render c1 c2 h ++ sep :: to_chars c)) with (to_chars c).
  - rewrite <- (app_nil_r (to_chars c)) at 1.
    rewrite from_chars_to_chars by (simpl; auto). reflexivity.
  - change (40 + 1)%nat with 41%nat.
    replace (render c1 c2 h ++ sep :: to_chars c)
      with ((render c1 c2 h ++ [sep]) ++ to_chars c)
      by (rewrite <- app_assoc; reflexivity).
    rewrite skipn_app.
    rewrite skipn_all2 by (rewrite length_app, Hr; simpl; lia).
    rewrite length_app, Hr. simpl. reflexivity.
Qed.
End Rendering.

(** ** The hex rendering of [to_string] and its way back *)

Lemma hash_to_hex_spec h :
  hash_to_hex h = Some (render low_nibble_char low_nibble_char h).
Proof.
  induction h as [|b h IH]; [reflexivity|].
  cbn [hash_to_hex].
  change (to_byte (Z.shiftr 0xF0 4)) with (Z.ones 4).
  change 0x0F with (Z.ones 4).
  rewrite Z.land_ones by lia. change (2 ^ 4) with 16.
  pose proof (Z.mod_pos_bound b 16 ltac:(lia)) as Hb.
  replace (b mod 16) with (Z.of_N (Z.to_N (b mod 16))) by (apply Z2N.id; lia).
  rewrite nibble_to_char_spec by lia.
  rewrite IH. reflexivity.
Qed.

Lemma low_nibble_pair b :
  make_byte (low_nibble_char b) (low_nibble_char b) = Some (17 * (b mod 16)).
Proof.
  pose proof (Z.mod_pos_bound b 16 ltac:(lia)) as Hb.
  destruct (upper_hex_digit_char_spec (Z.to_N (b mod 16)) ltac:(lia))
    as [Hhex Hval].
  unfold low_nibble_char.
  rewrite make_byte_hex by (unfold is_hex_digit; rewrite Hhex; reflexivity).
  rewrite Hval, Z2N.id by lia. f_equal. lia.
Qed.

(** What the round trip really computes: every byte comes back with its low
    nibble in both halves. *)
Lemma to_string_roundtrip p :
  length (hash p) = hash_size -> INT32_MIN <= count p <= INT32_MAX ->
  exists text,
    to_string p = Some text
    /\ convert_to_binary text
       = Some (mk_pawned_pw (map (fun b => 17 * (b mod 16)) (hash p)) (count p)).
Proof.
  intros Hlen Hc. unfold to_string. rewrite hash_to_hex_spec.
  eexists. split; [reflexivity|].
  apply (convert_to_binary_render _ _ _ low_nibble_pair); assumption.
Qed.

Lemma proper_pair (digit : N -> ascii) :
  (forall d, (d < 16)%N ->
     is_hex_digit (digit d) = true /\ hex_digit_val (digit d) = Z.of_N d) ->
  forall b, make_byte (digit (Z.to_N ((b mod 256) / 16)))
                      (digit (Z.to_N ((b mod 256) mod 16)))
            = Some (b mod 256).
Proof.
  intros Hdigit b.
  pose proof (Z.mod_pos_bound b 256 ltac:(lia)) as Hb.
  pose proof (Z.mod_pos_bound (b mod 256) 16 ltac:(lia)) as Hlo.
  assert (0 <= (b mod 256) / 16 < 16) as Hhi
    by (split; [apply Z.div_pos; lia | apply Z.div_lt_upper_bound; lia]).
  destruct (Hdigit (Z.to_N ((b mod 256) / 16)) ltac:(lia)) as [H1 V1].
  destruct (Hdigit (Z.to_N ((b mod 256) mod 16)) ltac:(lia)) as [H2 V2].
  rewrite make_byte_hex by assumption.
  rewrite V1, V2, !Z2N.id by lia. f_equal.
  pose proof (Z.div_mod (b mod 256) 16 ltac:(lia)). lia.
Qed.

Lemma map_mod_bytes h : Forall is_byte h -> map (fun b => b mod 256) h = h.
Proof.
  induction 1 as [|b h Hb _ IH]; [reflexivity|].
  cbn [map]. rewrite IH. unfold is_byte in Hb. rewrite Z.mod_small by lia.
  reflexivity.
Qed.

(** The parser itself is right, for upper-case and for lower-case digits:
    a correctly rendered hash with a count is read back as it was. *)
Lemma convert_to_binary_proper_hex (digit : N -> ascii) h c :
  digit = upper_hex_digit_char \/ digit = lower_hex_digit_char ->
  length h = hash_size -> Forall is_byte h -> INT32_MIN <= c <= INT32_MAX ->
  convert_to_binary
    (render (fun b => digit (Z.to_N ((b mod 256) / 16)))
            (fun b => digit (Z.to_N ((b mod 256) mod 16))) h
     ++ ":"%char :: to_chars c)
  = Some (mk_pawned_pw h c).
Proof.
  intros Hdigit Hlen Hbytes Hc.
  rewrite (convert_to_binary_render _ _ (fun b => b mod 256)); try assumption.
  - rewrite map_mod_bytes by assumption. reflexivity.
  - apply proper_pair. intros d Hd. unfold is_hex_digit.
    destruct Hdigit as [-> | ->].
    + destruct (upper_hex_digit_char_spec d Hd) as [-> ?]. auto.
    + destruct (lower_hex_digit_char_spec d Hd) as [-> ?].
      rewrite orb_true_r. auto.
Qed.

(** C1 (the claim fails on the code).  Round trip of a hash through
    [to_string] and [convert_to_binary], evaluated on the SHA-1 of
    "P@ssw0rd" with count 5: [to_string] writes the low nibble of every byte
    twice ("11DD22CC..." for 21 BD 12 DC ...), so the hash read back is
    11 DD 22 CC ... and differs from the one that was rendered. *)
Theorem to_string_roundtrip_sample :
  to_string (mk_pawned_pw sample_hash 5)
  = Some (str "11DD22CC88FF44EE77FF7777EE33CCAA99227777:5")
  /\ convert_to_binary (str "11DD22CC88FF44EE77FF7777EE33CCAA99227777:5")
     = Some (mk_pawned_pw
               [0x11; 0xDD; 0x22; 0xCC; 0x88; 0xFF; 0x44; 0xEE; 0x77; 0xFF;
                0x77; 0x77; 0xEE; 0x33; 0xCC; 0xAA; 0x99; 0x22; 0x77; 0x77] 5)
  /\ (forall text p,
        to_string (mk_pawned_pw sample_hash 5) = Some text ->
        convert_to_binary text = Some p ->
        hash p <> sample_hash).
Proof.
  split; [vm_compute; reflexivity|].
  split; [vm_compute; reflexivity|].
  intros text p Ht Hp.
  assert (E : to_string (mk_pawned_pw sample_hash 5)
              = Some (str "11DD22CC88FF44EE77FF7777EE33CCAA99227777:5"))
    by (vm_compute; reflexivity).
  assert (text = str "11DD22CC88FF44EE77FF7777EE33CCAA99227777:5")
    by congruence.
  subst text.
  assert (E2 : convert_to_binary (str "11DD22CC88FF44EE77FF7777EE33CCAA99227777:5")
     = Some (mk_pawned_pw
               [0x11; 0xDD; 0x22; 0xCC; 0x88; 0xFF; 0x44; 0xEE; 0x77; 0xFF;
                0x77; 0x77; 0xEE; 0x33; 0xCC; 0xAA; 0x99; 0x22; 0x77; 0x77] 5))
    by (vm_compute; reflexivity).
  rewrite E2 in Hp. injection Hp as Hp. subst p. cbn [hash]. discriminate.
Qed.

(** C7.  For a text of at least 40 characters whose first 40 are hex
    digits, [convert_to_binary] returns a record; its count is -1 when the
    text has at most 41 characters or [std::from_chars] rejects what follows
    character 41, and it is the parsed value otherwise; in particular the
    decimal rendering of any 32-bit value is read back as that value. *)
Theorem convert_to_binary_count text :
  (40 <= length text)%nat ->
  forallb is_hex_digit (firstn 40 text) = true ->
  exists p,
    convert_to_binary text = Some p
    /\ hash p = map (byte_at text) (seq 0 20)
    /\ ((length text <= 41)%nat -> count p = -1)
    /\ (from_chars (skipn 41 text) = None -> count p = -1)
    /\ (forall v, (41 < length text)%nat ->
                  from_chars (skipn 41 text) = Some v -> count p = v)
    /\ (forall v rest, INT32_MIN <= v <= INT32_MAX -> no_digit_ahead rest ->
                       skipn 41 text = to_chars v ++ rest -> count p = v).
Proof.
  intros Hlen Hhex. unfold convert_to_binary.
  change (hash_size * 2)%nat with 40%nat. change hash_size with 20%nat.
  replace (40 <=? length text)%nat with true
    by (symmetry; apply Nat.leb_le; lia).
  cbn [assert].
  rewrite (read_hash_hex 20 0 text)
    by (intros j Hj; apply (hex_prefix_char_at text 40); [assumption|lia|lia]).
  change (40 + 1)%nat with 41%nat.
  eexists. split; [reflexivity|]. cbn [hash count].
  split; [reflexivity|].
  split; [|split; [|split]].
  - intros Hle. replace (41 <? length text)%nat with false
      by (symmetry; apply Nat.ltb_ge; lia). reflexivity.
  - intros ->. destruct (41 <? length text)%nat; reflexivity.
  - intros v Hgt ->. replace (41 <? length text)%nat with true
      by (symmetry; apply Nat.ltb_lt; lia). reflexivity.
  - intros v rest Hv Hrest E.
    assert (41 < length text)%nat as Hgt.
    { destruct (Nat.ltb_spec 41 (length text)) as [|Hle]; [assumption|].
      rewrite skipn_all2 in E by lia.
      symmetry in E. apply app_eq_nil in E as [E _].
      exfalso. exact (to_chars_nonempty v E). }
    replace (41 <? length text)%nat with true
      by (symmetry; apply Nat.ltb_lt; lia).
    rewrite E, from_chars_to_chars by assumption. reflexivity.
Qed.

Lemma convert_to_binary_count_witness :
  exists p,
    convert_to_binary (str "21bd12DC183F740EE76F27B78EB39C8AD972A757:42") = Some p
    /\ count p = 42.
Proof.
  destruct (convert_to_binary_count
              (str "21bd12DC183F740EE76F27B78EB39C8AD972A757:42"))
    as (p & Hp & _ & _ & _ & Hv & _).
  - vm_compute. lia.
  - vm_compute. reflexivity.
  - exists p. split; [exact Hp|]. apply Hv.
    + vm_compute. lia.
    + vm_compute. reflexivity.
Defined.

(** ** Ordering of records *)

Lemma be_value_bound h :
  Forall is_byte h -> 0 <= be_value h < 256 ^ Z.of_nat (length h).
Proof.
  induction 1 as [|x t Hx _ IH]; [simpl; lia|].
  cbn [be_value length]. rewrite Nat2Z.inj_succ, Z.pow_succ_r by lia.
  unfold is_byte in Hx. nia.
Qed.

Lemma lex_lt_irrefl a : ~ lex_lt a a.
Proof.
  induction a as [|x a IH]; intros H; inversion H; subst; [lia | auto].
Qed.

Lemma three_way_Lt a : forall b,
  length a = length b ->
  (array_compare_three_way a b = Lt <-> lex_lt a b).
Proof.
  induction a as [|x a IH]; intros [|y b] Hlen; try discriminate.
  - split; [discriminate | inversion 1].
  - cbn [array_compare_three_way]. injection Hlen as Hlen.
    destruct (Z.compare_spec x y) as [->|Hlt|Hgt].
    + rewrite (IH b Hlen). split; [apply lex_lt_next|].
      inversion 1; subst; [lia | assumption].
    + split; [intros _; apply lex_lt_here; assumption | reflexivity].
    + split; [discriminate|]. inversion 1; subst; lia.
Qed.

Lemma three_way_Gt a : forall b,
  length a = length b ->
  (array_compare_three_way a b = Gt <-> lex_lt b a).
Proof.
  induction a as [|x a IH]; intros [|y b] Hlen; try discriminate.
  - split; [discriminate | inversion 1].
  - cbn [array_compare_three_way]. injection Hlen as Hlen.
    destruct (Z.compare_spec x y) as [->|Hlt|Hgt].
    + rewrite (IH b Hlen). split; [apply lex_lt_next|].
      inversion 1; subst; [lia | assumption].
    + split; [discriminate|]. inversion 1; subst; lia.
    + split; [intros _; apply lex_lt_here; assumption | reflexivity].
Qed.

Lemma three_way_Eq a : forall b,
  length a = length b ->
  (array_compare_three_way a b = Eq <-> a = b).
Proof.
  induction a as [|x a IH]; intros [|y b] Hlen; try discriminate.
  - split; reflexivity.
  - cbn [array_compare_three_way]. injection Hlen as Hlen.
    destruct (Z.compare_spec x y) as [->|Hlt|Hgt].
    + rewrite (IH b Hlen). split; [intros ->; reflexivity|].
      intros E. injection E as E. exact E.
    + split; [discriminate|]. intros E. injection E as E1 E2. lia.
    + split; [discriminate|]. intros E. injection E as E1 E2. lia.
Qed.

Lemma array_compare_equal_spec a : forall b,
  length a = length b ->
  (array_compare_equal a b = true <-> a = b).
Proof.
  induction a as [|x a IH]; intros [|y b] Hlen; try discriminate.
  - split; reflexivity.
  - cbn [array_compare_equal]. injection Hlen as Hlen.
    rewrite andb_true_iff, Z.eqb_eq, (IH b Hlen).
    split; [intros [-> ->]; reflexivity|].
    intros E. injection E as E1 E2. auto.
Qed.

Lemma three_way_be_value a : forall b,
  length a = length b -> Forall is_byte a -> Forall is_byte b ->
  array_compare_three_way a b = (be_value a ?= be_value b).
Proof.
  induction a as [|x a IH]; intros [|y b] Hlen Ha Hb; try discriminate.
  - reflexivity.
  - cbn [array_compare_three_way be_value]. injection Hlen as Hlen.
    inversion Ha as [|? ? Hx Ha']; inversion Hb as [|? ? Hy Hb']; subst.
    pose proof (be_value_bound a Ha') as Ba.
    pose proof (be_value_bound b Hb') as Bb.
    rewrite Hlen in Ba |- *.
    set (P := 256 ^ Z.of_nat (length b)) in *.
    destruct (Z.compare_spec x y) as [->|Hlt|Hgt].
    + rewrite (IH b) by assumption.
      rewrite Z.add_compare_mono_l. reflexivity.
    + symmetry. apply Z.compare_lt_iff. nia.
    + symmetry. apply Z.compare_gt_iff. nia.
Qed.

(** C5.  For well-formed records, [operator<=>] is the lexicographic
    comparison of the hash bytes with the first byte most significant (it
    agrees with the comparison of the hashes read as big-endian numbers),
    [operator==] holds exactly when the hashes are equal, and neither
    depends on the counts. *)
Theorem pawned_pw_ordering (a b : pawned_pw) :
  well_formed a -> well_formed b ->
  (pawned_pw_cmp a b = Lt <-> lex_lt (hash a) (hash b))
  /\ (pawned_pw_cmp a b = Gt <-> lex_lt (hash b) (hash a))
  /\ (pawned_pw_cmp a b = Eq <-> hash a = hash b)
  /\ pawned_pw_cmp a b = (be_value (hash a) ?= be_value (hash b))
  /\ (pawned_pw_eq a b = true <-> hash a = hash b)
  /\ (forall ca cb,
        pawned_pw_cmp (mk_pawned_pw (hash a) ca) (mk_pawned_pw (hash b) cb)
        = pawned_pw_cmp a b
        /\ pawned_pw_eq (mk_pawned_pw (hash a) ca) (mk_pawned_pw (hash b) cb)
           = pawned_pw_eq a b).
Proof.
  intros (La & Ba & _) (Lb & Bb & _).
  assert (Hlen : length (hash a) = length (hash b)) by congruence.
  unfold pawned_pw_cmp, pawned_pw_eq.
  split; [apply three_way_Lt; assumption|].
  split; [apply three_way_Gt; assumption|].
  split; [apply three_way_Eq; assumption|].
  split; [apply three_way_be_value; assumption|].
  split; [apply array_compare_equal_spec; assumption|].
  intros ca cb. cbn [hash]. split; reflexivity.
Qed.

Lemma sample_well_formed h c :
  forallb (fun b => (0 <=? b) && (b <? 256)) h = true ->
  length h = hash_size -> INT32_MIN <= c <= INT32_MAX ->
  well_formed (mk_pawned_pw h c).
Proof.
  intros Hb Hl Hc. split; [exact Hl|]. split; [|exact Hc].
  cbn [hash]. apply Forall_forall. intros x Hx.
  rewrite forallb_forall in Hb. specialize (Hb x Hx). unfold is_byte. lia.
Qed.

Lemma pawned_pw_ordering_witness :
  pawned_pw_cmp (mk_pawned_pw sample_hash 7) (mk_pawned_pw sample_hash_next 3)
  = (be_value sample_hash ?= be_value sample_hash_next).
Proof.
  apply (pawned_pw_ordering (mk_pawned_pw sample_hash 7)
           (mk_pawned_pw sample_hash_next 3)).
  - apply sample_well_formed; [reflexivity | reflexivity | vm_compute; split; discriminate].
  - apply sample_well_formed; [reflexivity | reflexivity | vm_compute; split; discriminate].
Defined.

(** ** [write_lines] *)

Lemma split_lf_nonnil s : split_lf s <> [].
Proof.
  destruct s as [|c t]; [discriminate|]. cbn [split_lf].
  destruct (Ascii.eqb c LF); [discriminate|].
  destruct (split_lf t); discriminate.
Qed.

Lemma read_line_split s :
  exists tl,
    split_lf s = fst (read_line s) :: tl
    /\ filter nonempty tl = filter nonempty (split_lf (snd (read_line s))).
Proof.
  induction s as [|c t IH].
  - exists []. split; reflexivity.
  - cbn [read_line split_lf]. destruct (Ascii.eqb c LF).
    + exists (split_lf t). split; reflexivity.
    + destruct IH as (tl & E & F). destruct (read_line t) as [l r].
      cbn [fst snd] in *. rewrite E. exists tl. split; [reflexivity | exact F].
Qed.

Lemma read_line_length s :
  (length (fst (read_line s)) + length (snd (read_line s)) <= length s)%nat
  /\ (s <> [] -> (length (snd (read_line s)) < length s)%nat).
Proof.
  induction s as [|c t [IH1 IH2]]; [split; [simpl; lia | congruence]|].
  cbn [read_line]. destruct (Ascii.eqb c LF).
  - cbn [fst snd length]. split; [lia | intros _; lia].
  - destruct (read_line t) as [l r]. cbn [fst snd length] in *.
    split; [lia | intros _; lia].
Qed.

Lemma strip_prefix s :
  firstn (length (strip_trailing_cr s)) s = strip_trailing_cr s.
Proof.
  induction s as [|c t IH]; [reflexivity|].
  cbn [strip_trailing_cr].
  destruct (strip_trailing_cr t) as [|x t'] eqn:E.
  - destruct (Ascii.eqb c CR); reflexivity.
  - cbn [length] in IH. change (length (c :: x :: t')) with (S (S (length t'))).
    rewrite firstn_cons, IH. reflexivity.
Qed.

Lemma strip_length s : (length (strip_trailing_cr s) <= length s)%nat.
Proof.
  rewrite <- (strip_prefix s) at 1. rewrite length_firstn. lia.
Qed.

Lemma find_last_not_of_from_spec s : forall i found,
  find_last_not_of_from s CR i found
  = match strip_trailing_cr s with
    | [] => found
    | kept => (i + N.of_nat (length kept) - 1)%N
    end.
Proof.
  induction s as [|c t IH]; intros i found; [reflexivity|].
  cbn [find_last_not_of_from strip_trailing_cr]. rewrite IH.
  destruct (strip_trailing_cr t) as [|x t'].
  - destruct (Ascii.eqb c CR); [reflexivity|]. cbn [length]. lia.
  - cbn [length]. lia.
Qed.

Lemma erase_trailing_cr s :
  (N.of_nat (length s) < 2 ^ 64)%N ->
  erase s (wrap64 (find_last_not_of s CR + 1)) = strip_trailing_cr s.
Proof.
  intros Hlen. unfold erase, find_last_not_of.
  rewrite find_last_not_of_from_spec.
  pose proof (strip_length s) as Hle. pose proof (strip_prefix s) as Hp.
  destruct (strip_trailing_cr s) as [|x kept] eqn:E.
  - reflexivity.
  - transitivity (firstn (length (x :: kept)) s); [|exact Hp].
    f_equal. unfold wrap64.
    cbn [length] in *. rewrite N.mod_small by lia. lia.
Qed.

Lemma strip_app a b :
  strip_trailing_cr (a ++ b)
  = match strip_trailing_cr b with
    | [] => strip_trailing_cr a
    | _ => a ++ strip_trailing_cr b
    end.
Proof.
  induction a as [|c a IH]; cbn [app strip_trailing_cr].
  - destruct (strip_trailing_cr b); reflexivity.
  - rewrite IH. destruct (strip_trailing_cr b) as [|x b'].
    + reflexivity.
    + destruct a; reflexivity.
Qed.

Lemma strip_clean pfx : last pfx CR <> CR -> strip_trailing_cr pfx = pfx.
Proof.
  induction pfx as [|c t IH]; intros Hlast; [reflexivity|].
  cbn [strip_trailing_cr]. destruct t as [|d t].
  - cbn [strip_trailing_cr last] in *.
    destruct (Ascii.eqb_spec c CR); [contradiction | reflexivity].
  - rewrite IH by exact Hlast. reflexivity.
Qed.

Lemma strip_prefixed pfx line :
  last pfx CR <> CR ->
  strip_trailing_cr (pfx ++ line) = pfx ++ strip_trailing_cr line.
Proof.
  intros Hlast. rewrite strip_app, (strip_clean pfx Hlast).
  destruct (strip_trailing_cr line); [rewrite app_nil_r|]; reflexivity.
Qed.

Lemma write_lines_loop_spec pfx fuel : forall ss out rc,
  last pfx CR <> CR ->
  (length ss < fuel)%nat ->
  (N.of_nat (length pfx + length ss) < 2 ^ 64)%N ->
  (rc + N.of_nat (length ss) < 2 ^ 64)%N ->
  write_lines_loop fuel pfx ss out rc
  = (out ++ records_of pfx ss,
     (rc + N.of_nat (length (records_of pfx ss)))%N).
Proof.
  induction fuel as [|fuel IH]; intros ss out rc Hpfx Hfuel Hsize Hrc; [lia|].
  cbn [write_lines_loop]. unfold getline.
  destruct ss as [|c t] eqn:Ess.
  { cbn. rewrite app_nil_r. f_equal. lia. }
  rewrite <- Ess in *.
  assert (Hne : ss <> []) by (subst; discriminate).
  destruct (read_line_split ss) as (tl & Esplit & Efilter).
  destruct (read_line_length ss) as [Hlen1 Hlen2]. specialize (Hlen2 Hne).
  destruct (read_line ss) as [line rest]. cbn [fst snd] in *.
  unfold records_of at 1 2. rewrite Esplit. cbn [filter].
  unfold write_line.
  destruct line as [|x line'].
  - cbn [length Nat.ltb Nat.leb nonempty].
    rewrite IH by (try assumption; lia).
    unfold records_of. rewrite Efilter. reflexivity.
  - remember (x :: line') as line.
    replace (0 <? length line)%nat with true
      by (subst line; reflexivity).
    replace (nonempty line) with true by (subst line; reflexivity).
    rewrite erase_trailing_cr by (rewrite length_app; lia).
    rewrite strip_prefixed by assumption.
    assert (0 < length line)%nat by (subst line; simpl; lia).
    assert (Hw : wrap64 (rc + 1) = (rc + 1)%N)
      by (unfold wrap64; apply N.mod_small; lia).
    rewrite Hw.
    rewrite IH by (try assumption; lia).
    unfold records_of. rewrite Efilter. cbn [map length].
    rewrite <- app_assoc. cbn [app]. f_equal. lia.
Qed.

Lemma write_lines_records pfx buffer :
  last pfx CR <> CR ->
  (N.of_nat (length pfx + length buffer) < 2 ^ 64)%N ->
  write_lines pfx buffer
  = (records_of pfx buffer, N.of_nat (length (records_of pfx buffer))).
Proof.
  intros Hpfx Hsize. unfold write_lines.
  rewrite write_lines_loop_spec by (try assumption; lia).
  reflexivity.
Qed.

Lemma strip_trailing_cr_spec l :
  exists k,
    l = strip_trailing_cr l ++ repeat CR k
    /\ last (strip_trailing_cr l) LF <> CR.
Proof.
  induction l as [|c t (k & E & Hlast)].
  - exists 0%nat. split; [reflexivity | discriminate].
  - cbn [strip_trailing_cr]. destruct (strip_trailing_cr t) as [|x t'] eqn:Es.
    + destruct (Ascii.eqb_spec c CR) as [->|Hc].
      * exists (S k). cbn [app] in *. split; [rewrite E at 1; reflexivity | discriminate].
      * exists k. cbn [app] in *. split; [rewrite E at 1; reflexivity | exact Hc].
    + exists k. split; [rewrite E at 1; reflexivity | exact Hlast].
Qed.

Lemma split_lf_app_lf a b : split_lf (a ++ LF :: b) = split_lf a ++ split_lf b.
Proof.
  induction a as [|c a IH]; [reflexivity|].
  cbn [app split_lf]. rewrite IH.
  destruct (Ascii.eqb c LF); [reflexivity|].
  pose proof (split_lf_nonnil a) as Hne.
  destruct (split_lf a) as [|l ls]; [congruence | reflexivity].
Qed.

Lemma split_lf_cr k : split_lf (repeat CR k) = [repeat CR k].
Proof.
  induction k as [|k IH]; [reflexivity|].
  cbn [repeat split_lf]. rewrite IH. reflexivity.
Qed.

Lemma strip_all_cr k : strip_trailing_cr (repeat CR k) = [].
Proof.
  induction k as [|k IH]; [reflexivity|].
  cbn [repeat strip_trailing_cr]. rewrite IH. reflexivity.
Qed.

Lemma records_of_app_lf pfx a b :
  records_of pfx (a ++ LF :: b) = records_of pfx a ++ records_of pfx b.
Proof.
  unfold records_of. rewrite split_lf_app_lf, filter_app, map_app. reflexivity.
Qed.

Lemma records_of_cr pfx k : records_of pfx (repeat CR (S k)) = [pfx].
Proof.
  unfold records_of. rewrite split_lf_cr. cbn [repeat filter nonempty map].
  change (CR :: repeat CR k) with (repeat CR (S k)).
  rewrite strip_all_cr, app_nil_r. reflexivity.
Qed.

Lemma records_of_nil pfx : records_of pfx [] = [].
Proof. reflexivity. Qed.

Lemma records_of_line pfx before line :
  line_start before ->
  records_of pfx (before ++ line) = records_of pfx before ++ records_of pfx line.
Proof.
  intros [-> | (b & ->)]; [reflexivity|].
  rewrite <- app_assoc. cbn [app].
  rewrite !records_of_app_lf, records_of_nil, app_nil_r. reflexivity.
Qed.

(** C6.  [write_lines] calls the write function once per non-empty line of
    the buffer, in order, with the prefix in front and all trailing
    carriage returns removed; empty lines give no call; the returned value
    is the number of calls. *)
Theorem write_lines_one_record_per_line pfx buffer :
  last pfx CR <> CR ->
  (N.of_nat (length pfx + length buffer) < 2 ^ 64)%N ->
  fst (write_lines pfx buffer)
  = map (fun l => pfx ++ strip_trailing_cr l)
        (filter nonempty (split_lf buffer))
  /\ snd (write_lines pfx buffer)
     = N.of_nat (length (fst (write_lines pfx buffer)))
  /\ length (fst (write_lines pfx buffer))
     = length (filter nonempty (split_lf buffer))
  /\ (forall l, exists k,
        l = strip_trailing_cr l ++ repeat CR k
        /\ last (strip_trailing_cr l) LF <> CR).
Proof.
  intros Hpfx Hsize. rewrite write_lines_records by assumption.
  cbn [fst snd]. unfold records_of.
  split; [reflexivity|]. split; [reflexivity|].
  split; [apply length_map | apply strip_trailing_cr_spec].
Qed.

Lemma write_lines_one_record_per_line_witness :
  fst (write_lines (str "0000A") (str "1F:3" ++ [CR; LF; LF] ++ str "2E:1"))
  = map (fun l => str "0000A" ++ strip_trailing_cr l)
        (filter nonempty (split_lf (str "1F:3" ++ [CR; LF; LF] ++ str "2E:1"))).
Proof.
  apply (write_lines_one_record_per_line (str "0000A")
           (str "1F:3" ++ [CR; LF; LF] ++ str "2E:1")).
  - vm_compute. discriminate.
  - vm_compute. reflexivity.
Defined.

(** C10.  A line that is not empty but holds carriage returns only is not
    skipped: the write function is called for it with the bare prefix, and
    the call is counted.  The line may be ended by a line feed or be the
    unterminated last line of the buffer. *)
Theorem write_lines_cr_only_line pfx before after k :
  last pfx CR <> CR ->
  (N.of_nat (length pfx + (length before + S k + 1 + length after)) < 2 ^ 64)%N ->
  line_start before ->
  write_lines pfx (before ++ repeat CR (S k) ++ LF :: after)
  = (fst (write_lines pfx before) ++ [pfx] ++ fst (write_lines pfx after),
     (snd (write_lines pfx before) + 1 + snd (write_lines pfx after))%N)
  /\ write_lines pfx (before ++ repeat CR (S k))
     = (fst (write_lines pfx before) ++ [pfx],
        (snd (write_lines pfx before) + 1)%N).
Proof.
  intros Hpfx Hsize Hstart.
  rewrite !write_lines_records;
    try assumption;
    try (rewrite ?length_app, ?repeat_length; cbn [length];
         rewrite ?length_app, ?repeat_length; cbn [length]; lia).
  cbn [fst snd].
  rewrite (records_of_line pfx before (repeat CR (S k) ++ LF :: after))
    by assumption.
  rewrite (records_of_line pfx before (repeat CR (S k))) by assumption.
  rewrite records_of_app_lf, !records_of_cr.
  split; f_equal; rewrite ?length_app; cbn [length]; lia.
Qed.

Lemma write_lines_cr_only_line_witness :
  write_lines (str "0000A") (str "1F:3" ++ [CR; LF] ++ repeat CR 2 ++ LF :: str "2E:1")
  = (fst (write_lines (str "0000A") (str "1F:3" ++ [CR; LF]))
       ++ [str "0000A"] ++ fst (write_lines (str "0000A") (str "2E:1")),
     (snd (write_lines (str "0000A") (str "1F:3" ++ [CR; LF])) + 1
      + snd (write_lines (str "0000A") (str "2E:1")))%N).
Proof.
  apply (write_lines_cr_only_line (str "0000A") (str "1F:3" ++ [CR; LF])
           (str "2E:1") 1).
  - vm_compute. discriminate.
  - vm_compute. reflexivity.
  - right. exists (str "1F:3" ++ [CR]). reflexivity.
Defined.

(** ** The [--threads] option *)

(** C4 (as stated, refuted).  With a default of 8 worker threads the value
    9 is at least 1 and is rejected. *)
Lemma threads_check_rejects_above_default :
  1 <= 9 /\ threads_check 8 9 = false.
Proof. split; [lia | reflexivity]. Qed.

(** C4 (amended).  [--threads n] passes its check exactly when n lies
    between 1 and the value [cli.threads] holds when the options are
    defined, bounds included (n being an unsigned 32-bit number). *)
Theorem threads_check_range cli_threads n :
  threads_check cli_threads n = true
  <-> 1 <= n <= cli_threads /\ n < 2 ^ 32.
Proof.
  unfold threads_check, Range.
  rewrite !andb_true_iff, !Z.leb_le, Z.ltb_lt. lia.
Qed.

(** ** Exit codes *)

(** C3 (as stated, refuted).  The search tool started without arguments, a
    usage error, prints the usage text and exits with 0, not with 2. *)
Lemma hibp_main_usage_exit :
  exists e,
    hibp_main (fun _ => inr []) (fun _ => []) [str "hibp"] = Some e
    /\ cerr e = [str "something went wrong: USAGE: hibp dbfile.bin plaintext_password"
                 ++ [LF]]
    /\ exit_code e = 0
    /\ exit_code e <> 2.
Proof.
  eexists. split; [vm_compute; reflexivity|].
  cbn [cerr exit_code]. split; [reflexivity|]. split; [reflexivity | discriminate].
Qed.

(** The search tool also leaves with 0 when the database cannot be opened,
    where the server leaves with [EXIT_FAILURE]. *)
Lemma hibp_main_open_failure_exit sha1_final what :
  hibp_main (fun _ => inl (std_exception what)) sha1_final
    [str "hibp"; str "missing.bin"; str "secret"]
  = Some (mk_exit EXIT_SUCCESS [] [str "something went wrong: " ++ what ++ [LF]]).
Proof. reflexivity. Qed.

Lemma hibp_main_exit_success open_db sha1_final argv e :
  hibp_main open_db sha1_final argv = Some e -> exit_code e = EXIT_SUCCESS.
Proof.
  unfold hibp_main. intros H.
  destruct (hibp_try open_db sha1_final argv) as [[[what|]|out]|];
    try discriminate; injection H as <-; reflexivity.
Qed.

Lemma server_try_no_source open_source toc_build run_server cli :
  no_source cli = true ->
  exists what,
    server_try open_source toc_build run_server cli = Some (std_exception what).
Proof.
  intros H. unfold server_try. rewrite H. eexists. reflexivity.
Qed.

Lemma server_try_sha1_db open_source toc_build run_server cli what :
  is_empty (sha1_db_filename cli) = false ->
  open_source sha1_db (sha1_db_filename cli) = Some (std_exception what) ->
  server_try open_source toc_build run_server cli = Some (std_exception what).
Proof.
  intros Hname Hopen. unfold server_try.
  replace (no_source cli) with false
    by (unfold no_source; rewrite Hname; reflexivity).
  unfold prep_sources, when_set, prep_db. rewrite Hname, Hopen. reflexivity.
Qed.

(** C3 (amended).  The server exits with 0 when its [try] block completes,
    with 1 when a [std::exception] ends it (no source configured, a database
    that cannot be opened, ...), and with the code of the command-line
    library when parsing the arguments fails; it exits with 2 only if that
    library says so.  The search tool exits with 0 on success and never
    with 2. *)
Theorem exit_codes
    (open_source : source_kind -> list ascii -> option exception)
    (toc_build : source_kind -> list ascii -> Z -> option exception)
    (run_server : srv_cli_config_t -> option exception)
    (open_db : list ascii -> exception + list pawned_pw)
    (sha1_final : list ascii -> list ascii) :
  let server := server_main open_source toc_build run_server in
  let try_block := server_try open_source toc_build run_server in
  (forall cli, try_block cli = None -> server (parsed cli) = Some EXIT_SUCCESS)
  /\ (forall cli what, try_block cli = Some (std_exception what) ->
        server (parsed cli) = Some EXIT_FAILURE)
  /\ (forall cli, no_source cli = true -> server (parsed cli) = Some EXIT_FAILURE)
  /\ (forall cli what,
        is_empty (sha1_db_filename cli) = false ->
        open_source sha1_db (sha1_db_filename cli) = Some (std_exception what) ->
        server (parsed cli) = Some EXIT_FAILURE)
  /\ (forall code, server (parse_error code) = Some code)
  /\ (forall args, server args = Some 2 -> args = parse_error 2)
  /\ (forall argv out,
        hibp_try open_db sha1_final argv = Some (inr out) ->
        hibp_main open_db sha1_final argv = Some (mk_exit EXIT_SUCCESS out []))
  /\ (forall argv e,
        hibp_main open_db sha1_final argv = Some e -> exit_code e <> 2).
Proof.
  cbv zeta. unfold server_main.
  split; [intros cli ->; reflexivity|].
  split; [intros cli what ->; reflexivity|].
  split.
  { intros cli H.
    destruct (server_try_no_source open_source toc_build run_server cli H)
      as [what ->]. reflexivity. }
  split.
  { intros cli what Hname Hopen.
    rewrite (server_try_sha1_db _ _ _ _ what Hname Hopen). reflexivity. }
  split; [reflexivity|].
  split.
  { intros [cli|code] H.
    - destruct (server_try open_source toc_build run_server cli) as [[what|]|];
        discriminate.
    - injection H as ->. reflexivity. }
  split.
  { intros argv out H. unfold hibp_main. rewrite H. reflexivity. }
  intros argv e H. rewrite (hibp_main_exit_success _ _ _ _ H). discriminate.
Qed.

Lemma exit_codes_witness :
  server_main (fun _ _ => Some (std_exception (str "cannot open")))
    (fun _ _ _ => None) (fun _ => None) (parsed sample_cli)
  = Some EXIT_FAILURE.
Proof.
  destruct (exit_codes (fun _ _ => Some (std_exception (str "cannot open")))
              (fun _ _ _ => None) (fun _ => None)
              (fun _ => inr []) (fun _ => []))
    as (_ & _ & _ & Hopen & _).
  apply (Hopen sample_cli (str "cannot open")); reflexivity.
Defined.

(** ** Failure of the downloader threads *)

Lemma release_loop_empties remove_result dq :
  snd (release_loop remove_result dq) = [].
Proof.
  induction dq as [|dl rest IH]; [reflexivity|].
  cbn [release_loop]. destruct (release_loop remove_result rest) as [later dq'].
  exact IH.
Qed.

Lemma release_loop_handles remove_result dq :
  removed_handles (fst (release_loop remove_result dq)) = handles_of dq
  /\ cleaned_handles (fst (release_loop remove_result dq)) = handles_of dq.
Proof.
  unfold removed_handles, cleaned_handles, handles_of.
  induction dq as [|dl rest [IH1 IH2]]; [split; reflexivity|].
  cbn [release_loop]. destruct (release_loop remove_result rest) as [later dq'].
  cbn [fst flat_map] in *.
  rewrite !flat_map_app, IH1, IH2.
  destruct (easy dl) as [h|]; [|split; reflexivity].
  destruct (remove_result h); split; reflexivity.
Qed.





(** Without an exception in either slot [run_threads] shuts down and
    returns, leaving the queue alone. *)
Lemma run_threads_quiet thrnames0 que_thr_id req_thr_id remove_result dq :
  run_threads thrnames0 que_thr_id req_thr_id None None remove_result dq
  = mk_run_result [shutdown_curl_and_events] dq None.
Proof. reflexivity. Qed.

(** An exception object that is not a [std::exception] is not caught by
    [handle_exception]: it leaves [run_threads] at the first slot that
    holds one. *)
Lemma run_threads_foreign thrnames0 que_thr_id req_thr_id slot remove_result dq :
  run_threads thrnames0 que_thr_id req_thr_id (Some foreign_exception) slot
    remove_result dq
  = mk_run_result [] dq (Some foreign_exception).
Proof. reflexivity. Qed.


(** ** Prefixes as text *)

Lemma hex_value_render ds :
  Forall (fun d => (d < 16)%N) ds ->
  map (fun c => Z.to_N (hex_digit_val c)) (map upper_hex_digit_char ds) = ds
  /\ forallb is_upper_hex (map upper_hex_digit_char ds) = true.
Proof.
  induction 1 as [|d ds Hd _ [IH1 IH2]]; [split; reflexivity|].
  cbn [map forallb]. destruct (upper_hex_digit_char_spec d Hd) as [Hu Hv].
  rewrite IH1, IH2, Hu, Hv, N2Z.id. split; reflexivity.
Qed.

Lemma zeros_render k :
  map (fun c => Z.to_N (hex_digit_val c)) (repeat "0"%char k) = repeat 0%N k
  /\ forallb is_upper_hex (repeat "0"%char k) = true.
Proof.
  induction k as [|k [IH1 IH2]]; [split; reflexivity|].
  cbn [repeat map forallb]. rewrite IH1, IH2. split; reflexivity.
Qed.

Lemma format_05X_value n : prefix_value (format_05X n) = n.
Proof.
  unfold prefix_value, format_05X.
  destruct (hex_value_render (digits 16 n) (digits_bound 16 ltac:(lia) n))
    as [Hv _].
  rewrite map_app, Hv, (proj1 (zeros_render _)), of_digits_zeros.
  apply of_digits_digits. lia.
Qed.

Lemma format_05X_upper_hex n : forallb is_upper_hex (format_05X n) = true.
Proof.
  unfold format_05X. rewrite forallb_app, (proj2 (zeros_render _)).
  apply (hex_value_render (digits 16 n) (digits_bound 16 ltac:(lia) n)).
Qed.

Lemma format_05X_length n : (n < 0x100000)%N -> length (format_05X n) = 5%nat.
Proof.
  intros Hn. unfold format_05X.
  rewrite length_app, repeat_length, length_map.
  pose proof (digits_length 16 ltac:(lia) n 4 Hn). lia.
Qed.

Lemma upper_hex_not_cr c : is_upper_hex c = true -> c <> CR.
Proof. intros H ->. discriminate. Qed.

Lemma format_05X_clean n : last (format_05X n) CR <> CR.
Proof.
  pose proof (format_05X_upper_hex n) as Hall.
  assert (Hne : format_05X n <> []).
  { unfold format_05X. intros E. apply app_eq_nil in E as [_ E].
    apply map_eq_nil in E. exact (digits_nonempty 16 ltac:(lia) n E). }
  rewrite forallb_forall in Hall.
  apply upper_hex_not_cr, Hall.
  destruct (exists_last Hne) as (l & c & ->).
  rewrite last_last. apply in_or_app. right. left. reflexivity.
Qed.

(** ** [fill_download_queue] *)

Lemma fill_loop_appends cfg fuel : forall s,
  (next_prefix s <= prefix_limit cfg)%N -> (prefix_limit cfg < 2 ^ 64)%N ->
  exists new,
    download_queue (fill_loop fuel cfg s) = download_queue s ++ new
    /\ map prefix new = prefixes_from (next_prefix s) (length new)
    /\ Forall fresh new
    /\ next_prefix (fill_loop fuel cfg s)
       = (next_prefix s + N.of_nat (length new))%N
    /\ (next_prefix (fill_loop fuel cfg s) <= prefix_limit cfg)%N
    /\ process_queue (fill_loop fuel cfg s) = process_queue s
    /\ written (fill_loop fuel cfg s) = written s.
Proof.
  induction fuel as [|fuel IH]; intros s Hle Hlim.
  - exists []. cbn [fill_loop length]. rewrite app_nil_r, N.add_0_r.
    repeat split; auto.
  - cbn [fill_loop]. destruct (fill_continues cfg s) eqn:Hc.
    + unfold fill_continues in Hc. apply andb_true_iff in Hc as [_ Hc].
      apply negb_true_iff, N.eqb_neq in Hc.
      assert (Hw : wrap64 (next_prefix s + 1) = (next_prefix s + 1)%N)
        by (unfold wrap64; apply N.mod_small; lia).
      rewrite Hw.
      set (s1 := add_download (format_05X (next_prefix s))
                   (set_next_prefix (next_prefix s + 1) s)).
      destruct (IH s1) as (new & Hdq & Hpfx & Hfresh & Hnext & Hle' & Hpq & Hwr);
        [cbn; lia | assumption |].
      exists (mk_download (format_05X (next_prefix s)) [] false
                          (Some (next_handle s)) :: new).
      rewrite Hdq, Hnext, Hpq, Hwr. rewrite Hnext in Hle'.
      cbn [s1 add_download set_next_prefix download_queue next_prefix
           process_queue written length map prefix] in *.
      rewrite <- app_assoc. cbn [app].
      split; [reflexivity|]. split.
      { rewrite Hpfx. unfold prefixes_from. cbn [seq map].
        rewrite N2Nat.id.
        replace (N.to_nat (next_prefix s + 1)) with (S (N.to_nat (next_prefix s)))
          by lia.
        reflexivity. }
      split; [constructor; [split; reflexivity | assumption]|].
      split; [lia|]. split; [lia|]. split; reflexivity.
    + exists []. cbn [length]. rewrite app_nil_r, N.add_0_r.
      repeat split; auto.
Qed.


(** The fuel [fill_download_queue] runs its loop with is enough: the loop
    ends because its condition is false. *)
Lemma fill_loop_exits cfg fuel : forall s,
  (next_prefix s < 2 ^ 64)%N -> (prefix_limit cfg < 2 ^ 64)%N ->
  (prefix_distance cfg s <= fuel)%nat ->
  fill_continues cfg (fill_loop fuel cfg s) = false.
Proof.
  induction fuel as [|fuel IH]; intros s Hn Hl Hfuel.
  - cbn [fill_loop]. unfold fill_continues.
    replace (next_prefix s =? prefix_limit cfg)%N with true;
      [apply andb_false_r|].
    symmetry. apply N.eqb_eq. unfold prefix_distance in Hfuel.
    assert (Hz : (Z.of_N (prefix_limit cfg) - Z.of_N (next_prefix s)) mod 2 ^ 64 = 0).
    { pose proof (Z.mod_pos_bound (Z.of_N (prefix_limit cfg) - Z.of_N (next_prefix s))
                    (2 ^ 64) ltac:(lia)). lia. }
    destruct (N.lt_trichotomy (next_prefix s) (prefix_limit cfg)) as [H|[H|H]];
      [|assumption|].
    + rewrite Z.mod_small in Hz by lia. lia.
    + replace (Z.of_N (prefix_limit cfg) - Z.of_N (next_prefix s))
        with ((Z.of_N (prefix_limit cfg) - Z.of_N (next_prefix s) + 2 ^ 64)
              + (-1) * 2 ^ 64) in Hz by lia.
      rewrite Z.mod_add, Z.mod_small in Hz by lia. lia.
  - cbn [fill_loop]. destruct (fill_continues cfg s) eqn:Hc; [|exact Hc].
    apply IH.
    + cbn. unfold wrap64. apply N.mod_lt. lia.
    + assumption.
    + unfold fill_continues in Hc. apply andb_true_iff in Hc as [_ Hc].
      apply negb_true_iff, N.eqb_neq in Hc.
      unfold prefix_distance in *.
      cbn [add_download set_next_prefix next_prefix].
      set (l := Z.of_N (prefix_limit cfg)) in *.
      set (n := Z.of_N (next_prefix s)) in *.
      assert (Hn' : 0 <= n < 2 ^ 64) by (subst n; lia).
      assert (Hl' : 0 <= l < 2 ^ 64) by (subst l; lia).
      assert (Hnl : n <> l) by (subst n l; lia).
      assert (Hd : 1 <= (l - n) mod 2 ^ 64).
      { pose proof (Z.mod_pos_bound (l - n) (2 ^ 64) ltac:(lia)).
        destruct (Z.eq_dec ((l - n) mod 2 ^ 64) 0) as [E|]; [|lia].
        exfalso. destruct (Z.lt_ge_cases n l).
        - rewrite Z.mod_small in E by lia. lia.
        - replace (l - n) with ((l - n + 2 ^ 64) + (-1) * 2 ^ 64) in E by lia.
          rewrite Z.mod_add, Z.mod_small in E by lia. lia. }
      assert (Hw : Z.of_N (wrap64 (next_prefix s + 1)) = (n + 1) mod 2 ^ 64).
      { unfold wrap64. rewrite N2Z.inj_mod, N2Z.inj_add. reflexivity. }
      rewrite Hw.
      assert (E : (l - (n + 1) mod 2 ^ 64) mod 2 ^ 64 = (l - n) mod 2 ^ 64 - 1).
      { rewrite Zminus_mod_idemp_r.
        replace (l - (n + 1)) with ((l - n) - 1) by lia.
        rewrite <- Zminus_mod_idemp_l.
        apply Z.mod_small.
        pose proof (Z.mod_pos_bound (l - n) (2 ^ 64) ltac:(lia)). lia. }
      rewrite E. lia.
Qed.

Lemma shuffle_loop_spec dq : forall pq,
  exists moved,
    dq = moved ++ fst (shuffle_loop dq pq)
    /\ snd (shuffle_loop dq pq) = pq ++ moved
    /\ Forall (fun d => complete d = true) moved
    /\ match fst (shuffle_loop dq pq) with
       | [] => True
       | front :: _ => complete front = false
       end.
Proof.
  induction dq as [|front rest IH]; intros pq.
  - exists []. cbn. rewrite app_nil_r. auto.
  - cbn [shuffle_loop]. destruct (complete front) eqn:Hc; cbn [negb].
    + destruct (IH (pq ++ [front])) as (moved & E1 & E2 & Hall & Hfront).
      exists (front :: moved). rewrite E2, <- app_assoc. cbn [app].
      split; [f_equal; exact E1|]. split; [reflexivity|].
      split; [constructor; assumption | exact Hfront].
    + exists []. cbn. rewrite app_nil_r. auto.
Qed.

Lemma write_front_fields front rest s :
  download_queue (write_front front rest s) = download_queue s
  /\ process_queue (write_front front rest s) = rest
  /\ next_prefix (write_front front rest s) = next_prefix s
  /\ written (write_front front rest s)
     = written s ++ fst (write_lines (prefix front) (buffer front)).
Proof.
  unfold write_front.
  destruct (write_lines (prefix front) (buffer front)) as [calls n].
  repeat split; reflexivity.
Qed.

Lemma process_completed_some cfg s s' :
  process_completed_download_queue_entries cfg s = Some s' ->
  download_queue s <> [] /\ s' = shuffle_and_fill cfg s.
Proof.
  unfold process_completed_download_queue_entries.
  destruct (download_queue s); [discriminate|].
  intros E. injection E as <-. split; [discriminate | reflexivity].
Qed.





(** ** Order of the output *)

Lemma prefixes_from_succ a k :
  prefixes_from a (S k) = format_05X a :: prefixes_from (a + 1) k.
Proof.
  unfold prefixes_from. cbn [seq map]. rewrite N2Nat.id.
  replace (N.to_nat (a + 1)) with (S (N.to_nat a)) by lia. reflexivity.
Qed.

Lemma prefixes_from_app a j k :
  prefixes_from a (j + k)
  = prefixes_from a j ++ prefixes_from (a + N.of_nat j) k.
Proof.
  unfold prefixes_from. rewrite seq_app, map_app.
  replace (N.to_nat (a + N.of_nat j)) with (N.to_nat a + j)%nat by lia.
  reflexivity.
Qed.

Lemma write_front_written front rest s :
  written (write_front front rest s) = written s ++ task_records front.
Proof. apply write_front_fields. Qed.

Lemma write_loop_written pq : forall s,
  written (write_loop pq s) = written s ++ flat_map task_records pq
  /\ process_queue (write_loop pq s) = match pq with [] => process_queue s | _ => [] end
  /\ download_queue (write_loop pq s) = download_queue s.
Proof.
  induction pq as [|front rest IH]; intros s.
  - cbn. rewrite app_nil_r. auto.
  - cbn [write_loop flat_map]. destruct (IH (write_front front rest s))
      as (Hw & Hpq & Hdq).
    rewrite Hw, Hdq, Hpq, write_front_written, <- app_assoc.
    destruct (write_front_fields front rest s) as (Hd & Hp & _).
    rewrite Hd, Hp. split; [reflexivity|]. split; [|reflexivity].
    destruct rest; reflexivity.
Qed.

Lemma fresh_fits new : Forall fresh new -> Forall buffer_fits new.
Proof.
  apply Forall_impl. intros d [Hb _]. unfold buffer_fits. rewrite Hb.
  reflexivity.
Qed.

Lemma run_invariant_fill cfg start s done :
  (prefix_limit cfg < 2 ^ 64)%N ->
  run_invariant cfg start s done ->
  run_invariant cfg start (fill_download_queue cfg s) done.
Proof.
  intros Hlim [Hp Hn Hl Hw Hf]. unfold fill_download_queue.
  destruct (fill_loop_appends cfg (prefix_distance cfg s) s Hl Hlim)
    as (new & Hdq & Hpfx & Hfresh & Hnp & Hle & Hpq & Hwr).
  constructor; rewrite ?Hdq, ?Hpq, ?Hwr, ?Hnp; try assumption.
  - rewrite !app_assoc, map_app, length_app, prefixes_from_app.
    rewrite <- !app_assoc. rewrite Hp, Hpfx, Hn. reflexivity.
  - rewrite Hn, !app_assoc, (length_app _ new). lia.
  - rewrite Hnp in Hle. exact Hle.
  - rewrite !app_assoc. apply Forall_app. split.
    + rewrite <- !app_assoc. exact Hf.
    + apply fresh_fits. exact Hfresh.
Qed.

Lemma run_invariant_step cfg start s s' done :
  (prefix_limit cfg < 2 ^ 64)%N ->
  run_invariant cfg start s done -> step cfg s s' ->
  exists done', run_invariant cfg start s' done'.
Proof.
  intros Hlim Hinv Hstep.
  destruct Hstep as [s s' Ht | s s' Hsh | s front rest Hpq].
  - exists done. destruct Hinv as [Hp Hn Hl Hw Hf].
    destruct Ht as (Hdq & Hfit & Epq & Enp & _ & _ & _ & Ewr).
    assert (Hmap : map prefix (download_queue s') = map prefix (download_queue s)).
    { clear -Hdq. induction Hdq as [|d d' l l' E _ IH]; [reflexivity|].
      cbn [map]. rewrite IH, E. reflexivity. }
    assert (Hlen : length (download_queue s') = length (download_queue s))
      by (symmetry; exact (Forall2_length Hdq)).
    constructor; rewrite ?Epq, ?Enp, ?Ewr; try assumption.
    + rewrite !map_app, Hmap, <- !map_app.
      rewrite !length_app, Hlen, <- !length_app. exact Hp.
    + rewrite !length_app, Hlen, <- !length_app. exact Hn.
    + rewrite !app_assoc in Hf |- *. apply Forall_app in Hf as [Hf _].
      apply Forall_app. split; assumption.
  - exists done. apply process_completed_some in Hsh as [Hne ->].
    unfold shuffle_and_fill.
    destruct (shuffle_loop_spec (download_queue s) (process_queue s))
      as (moved & E1 & E2 & _).
    destruct (shuffle_loop (download_queue s) (process_queue s)) as [dq pq].
    cbn [fst snd] in *. apply run_invariant_fill; [assumption|].
    destruct Hinv as [Hp Hn Hl Hw Hf].
    assert (E : pq ++ dq = process_queue s ++ download_queue s)
      by (rewrite E1, E2, <- app_assoc; reflexivity).
    constructor; cbn [set_queues process_queue download_queue next_prefix written];
      rewrite ?E; assumption.
  - exists (done ++ [front]). destruct Hinv as [Hp Hn Hl Hw Hf].
    destruct (write_front_fields front rest s) as (Edq & Epq & Enp & Ewr).
    assert (E : (done ++ [front]) ++ rest ++ download_queue s
                = done ++ process_queue s ++ download_queue s)
      by (rewrite Hpq, <- app_assoc; reflexivity).
    constructor; rewrite ?Edq, ?Epq, ?Enp, ?E; try assumption.
    rewrite Ewr, Hw, flat_map_app. cbn [flat_map]. rewrite app_nil_r.
    reflexivity.
Qed.

Lemma run_invariant_initial cfg start :
  (start <= prefix_limit cfg)%N -> (prefix_limit cfg < 2 ^ 64)%N ->
  run_invariant cfg start (initial cfg start) [].
Proof.
  intros Hstart Hlim. apply run_invariant_fill; [assumption|].
  constructor; cbn; auto. lia.
Qed.

Lemma run_invariant_reachable cfg start s :
  (start <= prefix_limit cfg)%N -> (prefix_limit cfg < 2 ^ 64)%N ->
  reachable cfg (initial cfg start) s ->
  exists done, run_invariant cfg start s done.
Proof.
  intros Hstart Hlim Hr. induction Hr as [|s s' _ [done IH] Hstep].
  - exists []. apply run_invariant_initial; assumption.
  - exact (run_invariant_step cfg start s s' done Hlim IH Hstep).
Qed.

(** One turn of the loop of [service_queue] is made of steps: the
    transport thread's turn, the shuffle and refill, then the writes. *)
Lemma write_loop_reachable cfg s0 pq : forall s,
  reachable cfg s0 s -> process_queue s = pq ->
  reachable cfg s0 (write_loop pq s).
Proof.
  induction pq as [|front rest IH]; intros s Hr Hpq; [exact Hr|].
  cbn [write_loop]. apply IH.
  - eapply reach_step; [exact Hr|]. apply step_write. exact Hpq.
  - apply write_front_fields.
Qed.

Lemma service_turn_reachable cfg s0 s s1 :
  reachable cfg s0 s -> download_queue s <> [] -> transport s s1 ->
  exists s2,
    process_completed_download_queue_entries cfg s1 = Some s2
    /\ reachable cfg s0 (write_completed_process_queue_entries s2).
Proof.
  intros Hr Hne Ht.
  assert (Hne1 : download_queue s1 <> []).
  { destruct Ht as (Hdq & _). intros E. rewrite E in Hdq. inversion Hdq.
    congruence. }
  assert (Hsome : process_completed_download_queue_entries cfg s1
                  = Some (shuffle_and_fill cfg s1)).
  { unfold process_completed_download_queue_entries.
    destruct (download_queue s1); [congruence | reflexivity]. }
  exists (shuffle_and_fill cfg s1). split; [exact Hsome|].
  unfold write_completed_process_queue_entries.
  apply write_loop_reachable; [|reflexivity].
  eapply reach_step; [eapply reach_step; [exact Hr|]|].
  - apply step_transport. exact Ht.
  - apply step_shuffle. exact Hsome.
Qed.

Lemma sorted_block_app a l1 l2 :
  Forall (fun v => v = a) l1 ->
  StronglySorted N.le l2 -> Forall (fun v => (a + 1 <= v)%N) l2 ->
  StronglySorted N.le (l1 ++ l2) /\ Forall (fun v => (a <= v)%N) (l1 ++ l2).
Proof.
  intros H1 H2 H3.
  assert (Hge : Forall (fun v => (a <= v)%N) l2)
    by (revert H3; apply Forall_impl; intros; lia).
  induction H1 as [|v l1 -> _ [IHs IHf]]; cbn [app].
  - split; assumption.
  - split; constructor; try assumption. lia.
Qed.

Lemma record_prefix_prefixed a x :
  (a < 0x100000)%N -> record_prefix (format_05X a ++ x) = a.
Proof.
  intros Ha. unfold record_prefix.
  rewrite firstn_app, (format_05X_length a Ha).
  rewrite firstn_all2 by (rewrite format_05X_length; [lia | assumption]).
  rewrite Nat.sub_diag. cbn [firstn]. rewrite app_nil_r.
  apply format_05X_value.
Qed.

Lemma task_records_spec d a :
  prefix d = format_05X a -> (a < 0x100000)%N -> buffer_fits d ->
  task_records d = records_of (prefix d) (buffer d)
  /\ Forall (fun r => record_prefix r = a) (task_records d).
Proof.
  intros Hp Ha Hfit. unfold task_records.
  rewrite write_lines_records.
  - cbn [fst]. split; [reflexivity|].
    unfold records_of. rewrite Hp. apply Forall_forall. intros r Hr.
    apply in_map_iff in Hr as (l & <- & _).
    apply record_prefix_prefixed. exact Ha.
  - rewrite Hp. apply format_05X_clean.
  - rewrite Hp, (format_05X_length a Ha). unfold buffer_fits in Hfit. lia.
Qed.

Lemma done_sorted done : forall a,
  map prefix done = prefixes_from a (length done) ->
  (a + N.of_nat (length done) <= 0x100000)%N ->
  Forall buffer_fits done ->
  StronglySorted N.le (map record_prefix (flat_map task_records done))
  /\ Forall (fun v => (a <= v)%N) (map record_prefix (flat_map task_records done)).
Proof.
  induction done as [|d rest IH]; intros a Hp Ha Hfit.
  - cbn. split; constructor.
  - cbn [length] in *. rewrite prefixes_from_succ in Hp.
    cbn [map] in Hp. injection Hp as Hd Hrest.
    inversion Hfit as [|? ? Hfd Hfrest]; subst.
    destruct (IH (a + 1)%N Hrest ltac:(lia) Hfrest) as [IHs IHf].
    destruct (task_records_spec d a Hd ltac:(lia) Hfd) as [_ Hall].
    cbn [flat_map]. rewrite map_app.
    apply sorted_block_app; try assumption.
    apply Forall_forall. intros v Hv. apply in_map_iff in Hv as (r & <- & Hr).
    rewrite Forall_forall in Hall. exact (Hall r Hr).
Qed.

(** C2.  The writer moves exactly the completed tasks at the front of the
    download queue, in order, to the back of the process queue and stops at
    the first incomplete one; it writes the process queue front to back; so
    in every state of a run the calls made to the write function are those
    of the tasks with the consecutive prefixes from the start prefix on,
    task after task, each task giving its lines in buffer order, and the
    prefixes of the records written are ascending. *)
Theorem download_in_prefix_order cfg start s :
  (start <= prefix_limit cfg)%N -> (prefix_limit cfg <= 0x100000)%N ->
  reachable cfg (initial cfg start) s ->
  (forall dq pq, exists moved,
      dq = moved ++ fst (shuffle_loop dq pq)
      /\ snd (shuffle_loop dq pq) = pq ++ moved
      /\ Forall (fun d => complete d = true) moved
      /\ match fst (shuffle_loop dq pq) with
         | [] => True
         | front :: _ => complete front = false
         end)
  /\ (forall t, written (write_completed_process_queue_entries t)
                = written t ++ flat_map task_records (process_queue t))
  /\ exists done,
       written s = flat_map task_records done
       /\ map prefix done = prefixes_from start (length done)
       /\ Forall (fun d => task_records d = records_of (prefix d) (buffer d)) done
       /\ StronglySorted N.le (map record_prefix (written s)).
Proof.
  intros Hstart Hlim Hr.
  split; [intros dq pq; apply shuffle_loop_spec|].
  split; [intros t; apply write_loop_written|].
  destruct (run_invariant_reachable cfg start s Hstart ltac:(lia) Hr)
    as [done [Hp Hn Hl Hw Hf]].
  exists done.
  assert (Hpd : map prefix done = prefixes_from start (length done)).
  { rewrite map_app, length_app, prefixes_from_app in Hp.
    apply app_inj_1 in Hp; [exact (proj1 Hp)|].
    unfold prefixes_from. rewrite !length_map, length_seq. reflexivity. }
  assert (Hfd : Forall buffer_fits done)
    by (apply Forall_app in Hf as [Hf _]; exact Hf).
  assert (Hbound : (start + N.of_nat (length done) <= 0x100000)%N).
  { rewrite length_app in Hn. lia. }
  split; [exact Hw|]. split; [exact Hpd|]. split.
  - clear -Hpd Hfd Hbound. revert start Hpd Hbound.
    induction done as [|d rest IH]; intros start Hpd Hbound; [constructor|].
    cbn [length] in *. rewrite prefixes_from_succ in Hpd.
    cbn [map] in Hpd. injection Hpd as Hd Hrest.
    inversion Hfd as [|? ? Hf1 Hf2]; subst.
    constructor.
    + apply (task_records_spec d start Hd ltac:(lia) Hf1).
    + apply (IH Hf2 (start + 1)%N Hrest). lia.
  - rewrite Hw. apply (done_sorted done start Hpd Hbound Hfd).
Qed.

Lemma run_all_written_reachable :
  reachable sample_cfg (initial sample_cfg 0xFFFFE) run_all_written.
Proof.
  eapply reach_step; [eapply reach_step; [eapply reach_step;
    [eapply reach_step; [apply reach_start|] |] |] |].
  - apply (step_transport sample_cfg _ run_fetched).
    unfold transport. split.
    + change (download_queue (initial sample_cfg 0xFFFFE))
        with [mk_download (str "FFFFE") [] false (Some 0%nat);
              mk_download (str "FFFFF") [] false (Some 1%nat)].
      repeat constructor.
    + split; [|repeat split; reflexivity].
      repeat constructor; unfold buffer_fits; vm_compute; reflexivity.
  - apply (step_shuffle sample_cfg run_fetched). reflexivity.
  - apply (step_write sample_cfg run_moved). reflexivity.
  - apply (step_write sample_cfg run_first_written). reflexivity.
Defined.

Lemma download_in_prefix_order_witness :
  written run_all_written = [str "FFFFEA:1"; str "FFFFEB:2"; str "FFFFFC:3"]
  /\ StronglySorted N.le (map record_prefix (written run_all_written)).
Proof.
  split; [vm_compute; reflexivity|].
  destruct (download_in_prefix_order sample_cfg 0xFFFFE run_all_written)
    as (_ & _ & done & _ & _ & _ & Hsorted).
  - vm_compute. discriminate.
  - vm_compute. discriminate.
  - exact run_all_written_reachable.
  - exact Hsorted.
Defined.

(** * Further properties of the code *)

(** ** The hex parser beyond hex digits *)

Lemma make_nibble_closed_form c :
  make_nibble c
  = if make_nibble_accepts c then Some (hex_digit_val c) else None.
Proof.
  revert c.
  assert (H : forall c,
             match make_nibble c with
             | Some v => make_nibble_accepts c && (v =? hex_digit_val c)
             | None => negb (make_nibble_accepts c)
             end = true).
  { apply ascii_forallb. vm_compute. reflexivity. }
  intros c. specialize (H c).
  destruct (make_nibble c) as [v|].
  - apply andb_true_iff in H as [-> H]. apply Z.eqb_eq in H. congruence.
  - apply negb_true_iff in H. rewrite H. reflexivity.
Qed.

Lemma accepted_val_bound c :
  make_nibble_accepts c = true -> 0 <= hex_digit_val c < 16.
Proof.
  revert c.
  assert (H : forall c,
             (if make_nibble_accepts c
              then (0 <=? hex_digit_val c) && (hex_digit_val c <? 16)
              else true) = true).
  { apply ascii_forallb. vm_compute. reflexivity. }
  intros c Hc. specialize (H c). rewrite Hc in H. lia.
Qed.

Lemma hex_digit_accepted c :
  is_hex_digit c = true -> make_nibble_accepts c = true.
Proof.
  revert c.
  assert (H : forall c,
             (if is_hex_digit c then make_nibble_accepts c else true) = true).
  { apply ascii_forallb. vm_compute. reflexivity. }
  intros c Hc. specialize (H c). rewrite Hc in H. exact H.
Qed.

(** X1.  [make_nibble] passes its assertion exactly on the characters
    '0'..'F' and 'W'..'f' of the ASCII table; on those it returns
    [c - '0'] up to '9', [c - 'A' + 10] up to 'F' and [c - 'a' + 10] from
    'W' on, always below 16.  So every hex digit of either case is read as
    its value, and the characters ':' to '@' and 'W' to '`', seven and ten
    of them, seventeen in all, are read as digits too instead of being
    refused. *)
Theorem make_nibble_domain c :
  make_nibble c
  = (if make_nibble_accepts c then Some (hex_digit_val c) else None)
  /\ (make_nibble_accepts c = true -> 0 <= hex_digit_val c < 16)
  /\ (is_hex_digit c = true -> make_nibble_accepts c = true)
  /\ (make_nibble_accepts c = true -> is_hex_digit c = false ->
      (58 <= N_of_ascii c <= 64 \/ 87 <= N_of_ascii c <= 96)%N)
  /\ ((58 <= N_of_ascii c <= 64 \/ 87 <= N_of_ascii c <= 96)%N ->
      make_nibble_accepts c = true /\ is_hex_digit c = false)
  /\ length (filter (fun a => make_nibble_accepts a && negb (is_hex_digit a))
               (map (fun n => ascii_of_N (N.of_nat n)) (seq 0 256)))
     = 17%nat.
Proof.
  split; [apply make_nibble_closed_form|].
  split; [apply accepted_val_bound|].
  split; [apply hex_digit_accepted|].
  split; [|split; [|vm_compute; reflexivity]].
  2:{ unfold make_nibble_accepts, is_hex_digit, is_upper_hex, is_lower_hex,
        is_dec_digit.
      intros Hr. rewrite orb_true_iff, !orb_false_iff, !andb_true_iff,
        !andb_false_iff, !N.leb_le, !N.leb_gt. lia. }
  unfold make_nibble_accepts, is_hex_digit, is_upper_hex, is_lower_hex.
  intros Ha Hh.
  apply orb_true_iff in Ha. apply orb_false_iff in Hh as [Hu Hl].
  apply orb_false_iff in Hu as [Hu1 Hu2]. apply orb_false_iff in Hl as [Hl1 Hl2].
  rewrite !andb_true_iff in Ha. rewrite !andb_false_iff in Hu1, Hu2, Hl1, Hl2.
  rewrite !N.leb_le in Ha. rewrite !N.leb_gt in Hu1, Hu2, Hl1, Hl2. lia.
Qed.

Lemma make_nibble_domain_witness :
  make_nibble ":" = Some 3 /\ make_nibble "W" = Some 0
  /\ (58 <= N_of_ascii ":" <= 64 \/ 87 <= N_of_ascii ":" <= 96)%N.
Proof.
  destruct (make_nibble_domain ":") as (E1 & _ & _ & H1 & _).
  destruct (make_nibble_domain "W") as (E2 & _).
  split; [exact E1|]. split; [exact E2|].
  apply H1; reflexivity.
Defined.

(** ** When [convert_to_binary] answers, and with what *)

Lemma make_byte_closed_form c1 c2 :
  make_byte c1 c2
  = if make_nibble_accepts c1 && make_nibble_accepts c2
    then Some (16 * hex_digit_val c1 + hex_digit_val c2) else None.
Proof.
  unfold make_byte. rewrite !make_nibble_closed_form.
  destruct (make_nibble_accepts c1) eqn:H1; [|reflexivity].
  destruct (make_nibble_accepts c2) eqn:H2; [|reflexivity].
  cbn [andb]. f_equal. apply lor_nibbles; apply accepted_val_bound; assumption.
Qed.

Lemma read_hash_accepted n : forall i text,
  (forall j, (2 * i <= j < 2 * (i + n))%nat ->
             make_nibble_accepts (char_at text j) = true) ->
  read_hash n i text = Some (map (byte_at text) (seq i n)).
Proof.
  induction n as [|n IH]; intros i text Hacc; [reflexivity|].
  cbn [read_hash seq map]. rewrite make_byte_closed_form.
  rewrite !Hacc by lia. cbn [andb].
  rewrite IH by (intros j Hj; apply Hacc; lia).
  reflexivity.
Qed.

Lemma read_hash_refused n : forall i text j,
  (2 * i <= j < 2 * (i + n))%nat ->
  make_nibble_accepts (char_at text j) = false ->
  read_hash n i text = None.
Proof.
  induction n as [|n IH]; intros i text j Hj Hrej; [lia|].
  cbn [read_hash]. rewrite make_byte_closed_form.
  destruct (Nat.eq_dec j (2 * i)) as [->|Hn1].
  { rewrite Hrej. reflexivity. }
  destruct (Nat.eq_dec j (2 * i + 1)) as [->|Hn2].
  { rewrite Hrej, andb_false_r. reflexivity. }
  rewrite (IH (S i) text j) by (try assumption; lia).
  destruct (make_nibble_accepts (char_at text (2 * i))
            && make_nibble_accepts (char_at text (2 * i + 1))); reflexivity.
Qed.

Lemma from_chars_range s v :
  from_chars s = Some v -> INT32_MIN <= v <= INT32_MAX.
Proof.
  unfold from_chars.
  destruct (match s with
            | [] => (false, s)
            | c :: t => if Ascii.eqb c "-" then (true, t) else (false, s)
            end) as [neg body].
  destruct (span_digits body) as [|d ds]; [discriminate|].
  set (val := if neg then _ else _).
  destruct (Z.leb_spec INT32_MIN val), (Z.leb_spec val INT32_MAX);
    cbn [andb]; try discriminate.
  intros E. injection E as <-. lia.
Qed.

Lemma byte_at_is_byte text k :
  make_nibble_accepts (char_at text (2 * k)) = true ->
  make_nibble_accepts (char_at text (2 * k + 1)) = true ->
  is_byte (byte_at text k).
Proof.
  intros H1 H2. unfold is_byte, byte_at.
  pose proof (accepted_val_bound _ H1). pose proof (accepted_val_bound _ H2).
  lia.
Qed.

(** Some character among the first [n] is refused, or all are accepted. *)
Lemma accepted_prefix_dec n text :
  accepted_prefix n text
  \/ exists j, (j < n)%nat /\ make_nibble_accepts (char_at text j) = false.
Proof.
  induction n as [|n [IH | (j & Hj & Hrej)]].
  - left. intros j Hj. lia.
  - destruct (make_nibble_accepts (char_at text n)) eqn:Hn.
    + left. intros j Hj. destruct (Nat.eq_dec j n) as [->|]; [exact Hn|].
      apply IH. lia.
    + right. exists n. split; [lia | exact Hn].
  - right. exists j. split; [lia | exact Hrej].
Qed.

Lemma convert_to_binary_some_iff text :
  convert_to_binary text <> None
  <-> (40 <= length text)%nat /\ accepted_prefix 40 text.
Proof.
  unfold convert_to_binary.
  change (hash_size * 2)%nat with 40%nat. change hash_size with 20%nat.
  destruct (Nat.leb_spec 40 (length text)) as [Hlen|Hlen]; cbn [assert].
  - destruct (accepted_prefix_dec 40 text) as [Hacc | (j & Hj & Hrej)].
    + rewrite (read_hash_accepted 20 0 text) by (intros j Hj; apply Hacc; lia).
      split; [intros _; split; assumption | discriminate].
    + rewrite (read_hash_refused 20 0 text j) by (try assumption; lia).
      split; [congruence|]. intros [_ Hacc].
      rewrite (Hacc j Hj) in Hrej. discriminate.
  - split; [congruence | lia].
Qed.

(** X2.  [convert_to_binary] gives a record exactly when the text has at
    least 40 characters and [make_nibble] accepts each of the first 40;
    otherwise an assertion fails.  What follows the 40th character never
    makes it fail. *)
Theorem convert_to_binary_defined text :
  (convert_to_binary text <> None
   <-> (40 <= length text)%nat /\ accepted_prefix 40 text)
  /\ ((length text < 40)%nat -> convert_to_binary text = None)
  /\ (forall j, (j < 40)%nat -> make_nibble_accepts (char_at text j) = false ->
                convert_to_binary text = None).
Proof.
  pose proof (convert_to_binary_some_iff text) as Hiff.
  split; [exact Hiff|]. split.
  - intros Hlen. destruct (convert_to_binary text) eqn:E; [|reflexivity].
    assert (H : Some p <> None) by discriminate. apply Hiff in H. lia.
  - intros j Hj Hrej. destruct (convert_to_binary text) eqn:E; [|reflexivity].
    assert (H : Some p <> None) by discriminate. apply Hiff in H as [_ Hacc].
    rewrite (Hacc j Hj) in Hrej. discriminate.
Qed.

Lemma convert_to_binary_defined_witness :
  convert_to_binary (str "21BD12DC183F740EE76F27B78EB39C8AD972A75") = None
  /\ convert_to_binary (str "21BD12DC183F740EE76F27B78EB39C8AD972A75G") = None.
Proof.
  split.
  - apply (convert_to_binary_defined
             (str "21BD12DC183F740EE76F27B78EB39C8AD972A75")).
    vm_compute. lia.
  - apply (proj2 (proj2 (convert_to_binary_defined
             (str "21BD12DC183F740EE76F27B78EB39C8AD972A75G"))) 39%nat).
    + lia.
    + reflexivity.
Defined.

Lemma convert_to_binary_wf text p :
  convert_to_binary text = Some p ->
  well_formed p /\ hash p = map (byte_at text) (seq 0 20).
Proof.
  intros Hp.
  assert (Hdef : convert_to_binary text <> None) by congruence.
  apply convert_to_binary_some_iff in Hdef as [Hlen Hacc].
  revert Hp. unfold convert_to_binary.
  change (hash_size * 2)%nat with 40%nat. change hash_size with 20%nat.
  replace (40 <=? length text)%nat with true
    by (symmetry; apply Nat.leb_le; exact Hlen).
  cbn [assert].
  rewrite (read_hash_accepted 20 0 text) by (intros j Hj; apply Hacc; lia).
  assert (Hbytes : Forall is_byte (map (byte_at text) (seq 0 20))).
  { apply Forall_forall. intros b Hb. apply in_map_iff in Hb as (k & <- & Hk).
    apply in_seq in Hk. apply byte_at_is_byte; apply Hacc; lia. }
  intros E. injection E as E. subst p. split; [|reflexivity].
  split; [reflexivity|]. split; [exact Hbytes|]. cbn [count].
  assert (Hm1 : INT32_MIN <= -1 <= INT32_MAX)
    by (vm_compute; split; discriminate).
  destruct (_ <? length text)%nat; [|exact Hm1].
  destruct (from_chars _) as [v|] eqn:Ev; [|exact Hm1].
  exact (from_chars_range _ _ Ev).
Qed.

(** X3.  Every record [convert_to_binary] returns is well formed: its hash
    has 20 bytes, each the value of one character pair and below 256, and
    its count is a 32-bit signed value. *)
Theorem convert_to_binary_well_formed text p :
  convert_to_binary text = Some p ->
  well_formed p /\ hash p = map (byte_at text) (seq 0 20).
Proof. apply convert_to_binary_wf. Qed.

Lemma convert_to_binary_well_formed_witness :
  exists p,
    convert_to_binary (str "21bd12DC183F740EE76F27B78EB39C8AD972A757:42") = Some p
    /\ well_formed p.
Proof.
  assert (E : convert_to_binary (str "21bd12DC183F740EE76F27B78EB39C8AD972A757:42")
              = Some (mk_pawned_pw sample_hash 42)) by (vm_compute; reflexivity).
  exists (mk_pawned_pw sample_hash 42). split; [exact E|].
  exact (proj1 (convert_to_binary_well_formed _ _ E)).
Defined.

(** ** The text [to_string] writes *)

Lemma to_chars_length c :
  INT32_MIN <= c <= INT32_MAX -> (1 <= length (to_chars c) <= 11)%nat.
Proof.
  intros Hc. unfold INT32_MIN, INT32_MAX in Hc.
  assert (H31 : 2 ^ 31 = 2147483648) by reflexivity.
  unfold to_chars. destruct (Z.ltb_spec c 0).
  - pose proof (digits_length 10 ltac:(lia) (Z.to_N (- c)) 9) as Hl.
    pose proof (digits_nonempty 10 ltac:(lia) (Z.to_N (- c))) as Hne.
    cbn [length]. rewrite length_map.
    assert (Z.to_N (- c) < 10 ^ N.of_nat 10)%N
      by (change (10 ^ N.of_nat 10)%N with 10000000000%N; lia).
    specialize (Hl ltac:(assumption)). lia.
  - pose proof (digits_length 10 ltac:(lia) (Z.to_N c) 9) as Hl.
    pose proof (digits_nonempty 10 ltac:(lia) (Z.to_N c)) as Hne.
    rewrite length_map.
    assert (Z.to_N c < 10 ^ N.of_nat 10)%N
      by (change (10 ^ N.of_nat 10)%N with 10000000000%N; lia).
    specialize (Hl ltac:(assumption)).
    destruct (digits 10 (Z.to_N c)); [congruence | cbn [length] in *; lia].
Qed.

Lemma render_upper_hex h :
  forallb is_upper_hex (render low_nibble_char low_nibble_char h) = true.
Proof.
  induction h as [|b h IH]; [reflexivity|].
  cbn [render flat_map app forallb]. fold (render low_nibble_char low_nibble_char h).
  pose proof (Z.mod_pos_bound b 16 ltac:(lia)) as Hb.
  destruct (upper_hex_digit_char_spec (Z.to_N (b mod 16)) ltac:(lia)) as [Hu _].
  unfold low_nibble_char at 1 2. rewrite Hu, IH. reflexivity.
Qed.

Lemma render_low_stable h :
  render low_nibble_char low_nibble_char (map (fun b => 17 * (b mod 16)) h)
  = render low_nibble_char low_nibble_char h.
Proof.
  induction h as [|b h IH]; [reflexivity|].
  cbn [map render flat_map app].
  fold (render low_nibble_char low_nibble_char h).
  fold (render low_nibble_char low_nibble_char (map (fun b => 17 * (b mod 16)) h)).
  rewrite IH.
  assert (E : low_nibble_char (17 * (b mod 16)) = low_nibble_char b).
  { unfold low_nibble_char. f_equal. f_equal.
    pose proof (Z.mod_pos_bound b 16 ltac:(lia)) as Hb.
    replace (17 * (b mod 16)) with (b mod 16 + (b mod 16) * 16) by lia.
    rewrite Z.mod_add by lia. apply Z.mod_small. lia. }
  rewrite E. reflexivity.
Qed.

(** X4.  [to_string] never trips the assertion of [nibble_to_char] and
    never overruns its 60-character buffer: for a well-formed record the
    text is 40 upper-case hex digits, a colon and the decimal count, 42 to
    52 characters in all. *)
Theorem to_string_shape p :
  well_formed p ->
  exists text,
    to_string p = Some text
    /\ (42 <= length text <= 52)%nat
    /\ forallb is_upper_hex (firstn 40 text) = true
    /\ skipn 40 text = ":"%char :: to_chars (count p).
Proof.
  intros (Hlen & _ & Hc). unfold to_string. rewrite hash_to_hex_spec.
  eexists. split; [reflexivity|].
  pose proof (render_length low_nibble_char low_nibble_char (hash p)) as Hr.
  rewrite Hlen in Hr. change (2 * hash_size)%nat with 40%nat in Hr.
  pose proof (to_chars_length (count p) Hc) as Ht.
  split; [rewrite length_app, Hr; cbn [length]; lia|].
  split.
  - rewrite firstn_app, Hr, Nat.sub_diag. cbn [firstn]. rewrite app_nil_r.
    rewrite firstn_all2 by lia. apply render_upper_hex.
  - rewrite skipn_app, Hr, Nat.sub_diag. cbn [skipn].
    rewrite skipn_all2 by lia. reflexivity.
Qed.

Lemma to_string_shape_witness :
  exists text,
    to_string (mk_pawned_pw sample_hash (-7)) = Some text
    /\ (42 <= length text <= 52)%nat.
Proof.
  destruct (to_string_shape (mk_pawned_pw sample_hash (-7)))
    as (text & E & Hl & _).
  - apply sample_well_formed; [reflexivity | reflexivity | vm_compute; split; discriminate].
  - exists text. split; assumption.
Defined.

(** X5.  The count survives the round trip through text, and the text is
    stable: reading the rendering of a well-formed record back gives a
    record with the same count whose own rendering is the same text. *)
Theorem to_string_count_roundtrip p :
  well_formed p ->
  exists text q,
    to_string p = Some text
    /\ convert_to_binary text = Some q
    /\ count q = count p
    /\ to_string q = Some text.
Proof.
  intros (Hlen & _ & Hc).
  destruct (to_string_roundtrip p Hlen Hc) as (text & Ht & Hq).
  exists text. eexists. split; [exact Ht|]. split; [exact Hq|].
  cbn [count]. split; [reflexivity|].
  unfold to_string in *. rewrite hash_to_hex_spec in *.
  cbn [hash count]. rewrite render_low_stable. exact Ht.
Qed.

Lemma to_string_count_roundtrip_witness :
  exists text q,
    to_string (mk_pawned_pw sample_hash 2147483647) = Some text
    /\ convert_to_binary text = Some q
    /\ count q = 2147483647.
Proof.
  destruct (to_string_count_roundtrip (mk_pawned_pw sample_hash 2147483647))
    as (text & q & Ht & Hq & Hcount & _).
  - apply sample_well_formed; [reflexivity | reflexivity | vm_compute; split; discriminate].
  - exists text, q. repeat split; assumption.
Defined.

(** ** More on [write_lines] *)

Lemma split_lf_no_lf s : Forall (fun l => ~ In LF l) (split_lf s).
Proof.
  induction s as [|c t IH]; [repeat constructor; auto|].
  cbn [split_lf]. destruct (Ascii.eqb_spec c LF) as [->|Hc].
  - constructor; [auto | exact IH].
  - destruct (split_lf t) as [|l ls]; [repeat constructor; intros [?|[]]; congruence|].
    inversion IH as [|? ? Hl Hls]; subst. constructor; [|exact Hls].
    intros [?|?]; [congruence | contradiction].
Qed.

Lemma split_lf_whole s : ~ In LF s -> split_lf s = [s].
Proof.
  induction s as [|c t IH]; intros Hno; [reflexivity|].
  cbn [split_lf]. destruct (Ascii.eqb_spec c LF) as [->|Hc].
  - exfalso. apply Hno. left. reflexivity.
  - rewrite IH by (intros H; apply Hno; right; exact H). reflexivity.
Qed.

Lemma strip_incl l c : In c (strip_trailing_cr l) -> In c l.
Proof.
  rewrite <- (strip_prefix l) at 1. intros H.
  rewrite <- (firstn_skipn (length (strip_trailing_cr l)) l).
  apply in_or_app. left. exact H.
Qed.

Lemma last_app_nonempty (a b : list ascii) d :
  b <> [] -> last (a ++ b) d = last b d.
Proof.
  intros Hb. destruct (exists_last Hb) as (b' & x & ->).
  rewrite app_assoc, !last_last. reflexivity.
Qed.

Lemma last_default_nonempty (l : list ascii) d d' :
  l <> [] -> last l d = last l d'.
Proof.
  intros Hl. destruct (exists_last Hl) as (l' & x & ->).
  rewrite !last_last. reflexivity.
Qed.

Lemma prefixed_last pfx l :
  last pfx CR <> CR -> last (pfx ++ strip_trailing_cr l) CR <> CR.
Proof.
  intros Hp. destruct (strip_trailing_cr l) as [|x t] eqn:E.
  - rewrite app_nil_r. exact Hp.
  - rewrite last_app_nonempty by discriminate.
    rewrite (last_default_nonempty _ CR LF) by discriminate.
    rewrite <- E. destruct (strip_trailing_cr_spec l) as (k & _ & H). exact H.
Qed.

(** X6.  Whatever the buffer holds, no text handed to the write function
    contains a line feed or ends in a carriage return, and each starts with
    the prefix (for a prefix free of line feeds that does not end in a
    carriage return, as every formatted prefix is). *)
Theorem write_lines_records_clean pfx buffer :
  last pfx CR <> CR -> ~ In LF pfx ->
  (N.of_nat (length pfx + length buffer) < 2 ^ 64)%N ->
  Forall (fun r => firstn (length pfx) r = pfx
                   /\ ~ In LF r
                   /\ last r CR <> CR)
         (fst (write_lines pfx buffer)).
Proof.
  intros Hlast Hno Hsize. rewrite write_lines_records by assumption.
  cbn [fst]. unfold records_of. apply Forall_forall. intros r Hr.
  apply in_map_iff in Hr as (l & <- & Hl).
  apply filter_In in Hl as [Hl _].
  pose proof (split_lf_no_lf buffer) as Hall. rewrite Forall_forall in Hall.
  specialize (Hall l Hl).
  split; [|split].
  - rewrite firstn_app, Nat.sub_diag, firstn_all. cbn [firstn].
    apply app_nil_r.
  - intros Hin. apply in_app_or in Hin as [Hin|Hin]; [contradiction|].
    apply Hall. apply strip_incl. exact Hin.
  - apply prefixed_last. exact Hlast.
Qed.

Lemma write_lines_records_clean_witness :
  Forall (fun r => firstn 5 r = str "0000A" /\ ~ In LF r /\ last r CR <> CR)
         (fst (write_lines (str "0000A") (str "1F:3" ++ [CR; LF; CR; CR; LF]))).
Proof.
  apply (write_lines_records_clean (str "0000A")
           (str "1F:3" ++ [CR; LF; CR; CR; LF])).
  - vm_compute. discriminate.
  - vm_compute. intros H. repeat (destruct H as [H|H]; [discriminate|]). exact H.
  - vm_compute. reflexivity.
Defined.

(** X7.  Lines are handled one by one: for two buffers joined by a line
    feed, [write_lines] makes the calls for the first, then those for the
    second, and returns the sum of the two counts. *)
Theorem write_lines_app_lf pfx a b :
  last pfx CR <> CR ->
  (N.of_nat (length pfx + (length a + 1 + length b)) < 2 ^ 64)%N ->
  write_lines pfx (a ++ LF :: b)
  = (fst (write_lines pfx a) ++ fst (write_lines pfx b),
     (snd (write_lines pfx a) + snd (write_lines pfx b))%N).
Proof.
  intros Hlast Hsize.
  rewrite !write_lines_records;
    try assumption; try (rewrite ?length_app; cbn [length]; lia).
  cbn [fst snd]. rewrite records_of_app_lf, length_app. f_equal. lia.
Qed.

Lemma write_lines_app_lf_witness :
  write_lines (str "0000A") (str "1F:3" ++ LF :: str "2E:1")
  = (fst (write_lines (str "0000A") (str "1F:3"))
       ++ fst (write_lines (str "0000A") (str "2E:1")),
     (snd (write_lines (str "0000A") (str "1F:3"))
      + snd (write_lines (str "0000A") (str "2E:1")))%N).
Proof.
  apply (write_lines_app_lf (str "0000A") (str "1F:3") (str "2E:1")).
  - vm_compute. discriminate.
  - vm_compute. reflexivity.
Defined.

Lemma records_count_bound pfx s :
  (length (records_of pfx s) <= length s)%nat.
Proof.
  unfold records_of. rewrite length_map.
  induction s as [|c t IH]; [cbn; lia|].
  cbn [split_lf]. destruct (Ascii.eqb c LF).
  - simpl. lia.
  - pose proof (split_lf_nonnil t) as Hne.
    destruct (split_lf t) as [|l ls]; [congruence|].
    simpl. destruct l; simpl in IH; lia.
Qed.

Lemma records_none_iff pfx s :
  records_of pfx s = [] <-> Forall (fun c => c = LF) s.
Proof.
  unfold records_of.
  induction s as [|c t IH]; [split; [constructor | reflexivity]|].
  cbn [split_lf]. destruct (Ascii.eqb_spec c LF) as [->|Hc].
  - simpl. rewrite IH. split.
    + intros H. constructor; [reflexivity | exact H].
    + intros H. inversion H; assumption.
  - pose proof (split_lf_nonnil t) as Hne.
    destruct (split_lf t) as [|l ls]; [congruence|].
    simpl. split; [discriminate|].
    intros H. inversion H; contradiction.
Qed.

(** X8.  The record count never exceeds the number of bytes of the buffer,
    and it is zero exactly when the buffer holds nothing but line feeds
    (the empty buffer included). *)
Theorem write_lines_count_bound pfx buffer :
  last pfx CR <> CR ->
  (N.of_nat (length pfx + length buffer) < 2 ^ 64)%N ->
  (snd (write_lines pfx buffer) <= N.of_nat (length buffer))%N
  /\ (snd (write_lines pfx buffer) = 0%N <-> Forall (fun c => c = LF) buffer)
  /\ (fst (write_lines pfx buffer) = [] <-> Forall (fun c => c = LF) buffer).
Proof.
  intros Hlast Hsize. rewrite write_lines_records by assumption.
  cbn [fst snd]. pose proof (records_count_bound pfx buffer) as Hb.
  split; [lia|]. split; [|apply records_none_iff].
  rewrite <- records_none_iff with (pfx := pfx).
  destruct (records_of pfx buffer); cbn [length]; split;
    try reflexivity; try discriminate; lia.
Qed.

Lemma write_lines_count_bound_witness :
  snd (write_lines (str "0000A") [LF; LF; LF]) = 0%N.
Proof.
  apply (write_lines_count_bound (str "0000A") [LF; LF; LF]).
  - vm_compute. discriminate.
  - vm_compute. reflexivity.
  - repeat constructor.
Defined.

(** ** From a range response to records *)

Lemma to_chars_digits c :
  exists sign ds,
    to_chars c = sign ++ map dec_digit_char ds
    /\ (sign = [] \/ sign = ["-"%char])
    /\ ds <> [] /\ Forall (fun d => (d < 10)%N) ds.
Proof.
  unfold to_chars. destruct (c <? 0).
  - exists ["-"%char], (digits 10 (Z.to_N (- c))).
    split; [reflexivity|]. split; [auto|].
    split; [apply digits_nonempty; lia | apply digits_bound; lia].
  - exists [], (digits 10 (Z.to_N c)).
    split; [reflexivity|]. split; [auto|].
    split; [apply digits_nonempty; lia | apply digits_bound; lia].
Qed.

Lemma dec_digit_char_plain d :
  (d < 10)%N -> dec_digit_char d <> LF /\ dec_digit_char d <> CR.
Proof.
  intros Hd.
  assert (H : forall d, (d < N.of_nat 10)%N ->
             (negb (Ascii.eqb (dec_digit_char d) LF)
              && negb (Ascii.eqb (dec_digit_char d) CR)) = true).
  { apply N_below_forallb. vm_compute. reflexivity. }
  specialize (H d Hd). apply andb_true_iff in H as [H1 H2].
  apply negb_true_iff in H1, H2.
  split; intros E; rewrite E in *; discriminate.
Qed.

Lemma to_chars_plain c :
  ~ In LF (to_chars c) /\ last (to_chars c) CR <> CR.
Proof.
  destruct (to_chars_digits c) as (sign & ds & -> & Hsign & Hne & Hds).
  split.
  - intros Hin. apply in_app_or in Hin as [Hin|Hin].
    + destruct Hsign as [-> | ->]; [contradiction|].
      destruct Hin as [E|[]]. discriminate.
    + apply in_map_iff in Hin as (d & E & Hd).
      rewrite Forall_forall in Hds.
      exact (proj1 (dec_digit_char_plain d (Hds d Hd)) E).
  - rewrite last_app_nonempty by (intros E; apply map_eq_nil in E; congruence).
    destruct (exists_last Hne) as (ds' & d & ->).
    rewrite map_app. cbn [map]. rewrite last_last.
    apply dec_digit_char_plain. rewrite Forall_forall in Hds.
    apply Hds. apply in_or_app. right. left. reflexivity.
Qed.

Lemma hex_digit_plain c : is_hex_digit c = true -> c <> LF /\ c <> CR.
Proof. intros H. split; intros ->; discriminate. Qed.

Lemma byte_at_app hex rest k :
  (2 * k + 1 < length hex)%nat -> byte_at (hex ++ rest) k = byte_at hex k.
Proof.
  intros Hk. unfold byte_at, char_at. rewrite !app_nth1 by lia. reflexivity.
Qed.

(** Forty hex digits, a separator and a decimal count. *)
Lemma convert_to_binary_hex_count hex sep c :
  length hex = 40%nat -> forallb is_hex_digit hex = true ->
  INT32_MIN <= c <= INT32_MAX ->
  convert_to_binary (hex ++ sep :: to_chars c)
  = Some (mk_pawned_pw (map (byte_at hex) (seq 0 20)) c).
Proof.
  intros Hlen Hhex Hc. unfold convert_to_binary.
  change (hash_size * 2)%nat with 40%nat. change hash_size with 20%nat.
  pose proof (to_chars_length c Hc) as Ht.
  assert (Hl : length (hex ++ sep :: to_chars c) = (41 + length (to_chars c))%nat)
    by (rewrite length_app, Hlen; cbn [length]; lia).
  rewrite Hl.
  replace (40 <=? 41 + length (to_chars c))%nat with true
    by (symmetry; apply Nat.leb_le; lia).
  cbn [assert].
  rewrite (read_hash_hex 20 0).
  2:{ intros j Hj. unfold char_at. rewrite app_nth1 by lia.
      rewrite forallb_forall in Hhex. apply Hhex. apply nth_In. lia. }
  replace (40 + 1 <? 41 + length (to_chars c))%nat with true
    by (symmetry; apply Nat.ltb_lt; lia).
  replace (map (byte_at (hex ++ sep :: to_chars c)) (seq 0 20))
    with (map (byte_at hex) (seq 0 20))
    by (apply map_ext_in; intros k Hk; apply in_seq in Hk;
        symmetry; apply byte_at_app; lia).
  replace (skipn (40 + 1) (hex ++ sep :: to_chars c)) with (to_chars c).
  - pose proof (from_chars_to_chars c [] Hc I) as Hfc.
    rewrite app_nil_r in Hfc. rewrite Hfc. reflexivity.
  - change (40 + 1)%nat with 41%nat.
    replace (hex ++ sep :: to_chars c) with ((hex ++ [sep]) ++ to_chars c)
      by (rewrite <- app_assoc; reflexivity).
    rewrite skipn_app, skipn_all2 by (rewrite length_app, Hlen; simpl; lia).
    rewrite length_app, Hlen. reflexivity.
Qed.

Lemma upstream_line_records pfx entry rest :
  upstream_entry_ok entry ->
  records_of pfx (upstream_line entry ++ rest)
  = upstream_record pfx entry :: records_of pfx rest.
Proof.
  intros (Hlen & Hhex & Hc). destruct entry as [sfx c]. cbn [fst snd] in *.
  unfold upstream_line, upstream_record. cbn [fst snd].
  set (line := sfx ++ ":"%char :: to_chars c).
  replace ((sfx ++ ":"%char :: to_chars c ++ [CR; LF]) ++ rest)
    with ((line ++ [CR]) ++ LF :: rest)
    by (subst line; rewrite <- !app_assoc; cbn [app];
        rewrite <- !app_assoc; reflexivity).
  rewrite records_of_app_lf. unfold records_of at 1.
  destruct (to_chars_plain c) as [HnoLF Hlast].
  assert (Hline_lf : ~ In LF (line ++ [CR])).
  { subst line. intros Hin. rewrite <- app_assoc in Hin.
    apply in_app_or in Hin as [Hin|Hin].
    - rewrite forallb_forall in Hhex.
      exact (proj1 (hex_digit_plain _ (Hhex _ Hin)) eq_refl).
    - cbn [app] in Hin. destruct Hin as [E|Hin]; [discriminate|].
      apply in_app_or in Hin as [Hin|[E|[]]]; [contradiction | discriminate]. }
  rewrite (split_lf_whole _ Hline_lf).
  assert (Hne : nonempty (line ++ [CR]) = true)
    by (destruct line; reflexivity).
  cbn [filter]. rewrite Hne. cbn [map app].
  assert (Hstrip : strip_trailing_cr (line ++ [CR]) = line).
  { rewrite strip_app. cbn [strip_trailing_cr].
    change (Ascii.eqb CR CR) with true. cbv iota.
    apply strip_clean. subst line.
    rewrite last_app_nonempty by discriminate.
    pose proof (to_chars_nonempty c) as Hn.
    destruct (to_chars c) as [|x t] eqn:E; [congruence|].
    change (last (":"%char :: x :: t) CR) with (last (x :: t) CR).
    exact Hlast. }
  rewrite Hstrip. reflexivity.
Qed.

Lemma upstream_body_records pfx entries :
  Forall upstream_entry_ok entries ->
  records_of pfx (upstream_body entries) = map (upstream_record pfx) entries.
Proof.
  induction 1 as [|entry entries Hok _ IH]; [reflexivity|].
  unfold upstream_body in *. cbn [flat_map map].
  rewrite upstream_line_records by assumption. rewrite IH. reflexivity.
Qed.

(** X9.  A range response in the upstream format, lines of 35 hex digits,
    a colon and a count, each ended by carriage return and line feed, gives
    one record per line, in order, and [convert_to_binary] turns each of
    them into the 20 bytes that the prefix and the suffix spell and the
    count of the line. *)
Theorem upstream_body_converted n entries :
  (n < 0x100000)%N -> Forall upstream_entry_ok entries ->
  (N.of_nat (5 + length (upstream_body entries)) < 2 ^ 64)%N ->
  write_lines (format_05X n) (upstream_body entries)
  = (map (upstream_record (format_05X n)) entries, N.of_nat (length entries))
  /\ Forall (fun entry =>
               convert_to_binary (upstream_record (format_05X n) entry)
               = Some (mk_pawned_pw
                         (map (byte_at (format_05X n ++ fst entry)) (seq 0 20))
                         (snd entry)))
            entries.
Proof.
  intros Hn Hok Hsize.
  pose proof (format_05X_length n Hn) as Hlen.
  split.
  - rewrite write_lines_records;
      [|apply format_05X_clean | rewrite Hlen; exact Hsize].
    rewrite upstream_body_records by assumption.
    rewrite length_map. reflexivity.
  - revert Hok. apply Forall_impl. intros [sfx c] (Hl & Hhex & Hc).
    cbn [fst snd] in *. unfold upstream_record. cbn [fst snd].
    rewrite app_assoc. apply convert_to_binary_hex_count.
    + rewrite length_app, Hlen, Hl. reflexivity.
    + rewrite forallb_app, Hhex, andb_true_r.
      pose proof (format_05X_upper_hex n) as Hu.
      rewrite forallb_forall in Hu |- *. intros ch Hch.
      unfold is_hex_digit. rewrite (Hu ch Hch). reflexivity.
    + exact Hc.
Qed.

Lemma upstream_body_converted_witness :
  write_lines (format_05X 0x21BD1) (upstream_body sample_entries)
  = ([str "21BD12DC183F740EE76F27B78EB39C8AD972A757:52579";
      str "21BD12dc183f740ee76f27b78eb39c8ad972a758:3"], 2%N).
Proof.
  destruct (upstream_body_converted 0x21BD1 sample_entries) as [E _].
  - reflexivity.
  - repeat constructor; try reflexivity; vm_compute; discriminate.
  - vm_compute. reflexivity.
  - rewrite E. vm_compute. reflexivity.
Defined.

(** X10.  A line that is not empty but has fewer than 35 characters once
    its carriage returns are stripped, a line of carriage returns for
    one, still gives a record, and that record is one [convert_to_binary]
    refuses: the conversion of the binary writer fails its length
    assertion on it. *)
Theorem short_line_record_refused n buffer l :
  (n < 0x100000)%N ->
  (N.of_nat (5 + length buffer) < 2 ^ 64)%N ->
  In l (split_lf buffer) -> l <> [] ->
  (length (strip_trailing_cr l) < 35)%nat ->
  In (format_05X n ++ strip_trailing_cr l)
     (fst (write_lines (format_05X n) buffer))
  /\ convert_to_binary (format_05X n ++ strip_trailing_cr l) = None.
Proof.
  intros Hn Hsize Hl Hne Hshort.
  pose proof (format_05X_length n Hn) as Hlen.
  split.
  - rewrite write_lines_records;
      [|apply format_05X_clean | rewrite Hlen; exact Hsize].
    cbn [fst]. unfold records_of.
    apply in_map_iff. exists l. split; [reflexivity|].
    apply filter_In. split; [exact Hl|]. destruct l; [congruence | reflexivity].
  - destruct (convert_to_binary _) as [p|] eqn:E; [|reflexivity].
    assert (H : convert_to_binary (format_05X n ++ strip_trailing_cr l) <> None)
      by congruence.
    apply convert_to_binary_some_iff in H as [H _].
    rewrite length_app, Hlen in H. lia.
Qed.

Lemma short_line_record_refused_witness :
  In (str "21BD1")
     (fst (write_lines (format_05X 0x21BD1) (str "2DC1:5" ++ [CR; LF; CR; LF])))
  /\ convert_to_binary (str "21BD1") = None.
Proof.
  apply (short_line_record_refused 0x21BD1 (str "2DC1:5" ++ [CR; LF; CR; LF]) [CR]).
  - reflexivity.
  - vm_compute. reflexivity.
  - vm_compute. right. left. reflexivity.
  - discriminate.
  - vm_compute. lia.
Defined.

(** ** Refilling and shuffling the queues *)

Lemma fill_loop_stops cfg fuel s :
  fill_continues cfg s = false -> fill_loop fuel cfg s = s.
Proof. intros H. destruct fuel; [reflexivity|]. cbn [fill_loop]. rewrite H. reflexivity. Qed.

Lemma fill_download_queue_exits cfg s :
  (next_prefix s < 2 ^ 64)%N -> (prefix_limit cfg < 2 ^ 64)%N ->
  fill_continues cfg (fill_download_queue cfg s) = false.
Proof.
  intros Hn Hl. unfold fill_download_queue.
  apply fill_loop_exits; [assumption | assumption | apply Nat.le_refl].
Qed.

(** X11.  [fill_download_queue] is idempotent: called again right after
    itself it finds its loop condition false and changes nothing. *)
Theorem fill_download_queue_idempotent cfg s :
  (next_prefix s < 2 ^ 64)%N -> (prefix_limit cfg < 2 ^ 64)%N ->
  fill_download_queue cfg (fill_download_queue cfg s)
  = fill_download_queue cfg s.
Proof.
  intros Hn Hl.
  pose proof (fill_download_queue_exits cfg s Hn Hl) as Hexit.
  unfold fill_download_queue at 1. apply fill_loop_stops. exact Hexit.
Qed.

Lemma fill_download_queue_idempotent_witness :
  fill_download_queue sample_cfg (fill_download_queue sample_cfg sample_queues)
  = fill_download_queue sample_cfg sample_queues.
Proof.
  apply (fill_download_queue_idempotent sample_cfg sample_queues);
    vm_compute; reflexivity.
Defined.

(** X12.  The loop compares the queue size with [parallel_max] by [!=]:
    run on a queue that already holds more than [parallel_max] tasks,
    [fill_download_queue] does not stop at the bound but appends every
    prefix left, up to [prefix_limit]. *)
Theorem fill_download_queue_overfull cfg s :
  (parallel_max cfg < queue_size s)%N ->
  (next_prefix s <= prefix_limit cfg)%N -> (prefix_limit cfg < 2 ^ 64)%N ->
  exists new,
    download_queue (fill_download_queue cfg s) = download_queue s ++ new
    /\ length new = N.to_nat (prefix_limit cfg - next_prefix s)
    /\ map prefix new = prefixes_from (next_prefix s) (length new)
    /\ next_prefix (fill_download_queue cfg s) = prefix_limit cfg.
Proof.
  intros Hover Hnext Hlim.
  pose proof (fill_download_queue_exits cfg s ltac:(lia) Hlim) as Hexit.
  unfold fill_download_queue in *.
  destruct (fill_loop_appends cfg (prefix_distance cfg s) s Hnext Hlim)
    as (new & Hdq & Hpfx & _ & Hnp & _).
  exists new. split; [exact Hdq|].
  unfold fill_continues in Hexit. rewrite Hdq, Hnp, length_app in Hexit.
  apply andb_false_iff in Hexit as [H|H]; apply negb_false_iff, N.eqb_eq in H.
  - unfold queue_size in Hover. lia.
  - split; [lia|]. split; [exact Hpfx|]. rewrite Hnp. exact H.
Qed.

Lemma fill_download_queue_overfull_witness :
  map prefix (download_queue (fill_download_queue sample_cfg sample_overfull))
  = [str "FFFF9"; str "FFFFA"; str "FFFFB"; str "FFFFC";
     str "FFFFD"; str "FFFFE"; str "FFFFF"].
Proof.
  destruct (fill_download_queue_overfull sample_cfg sample_overfull)
    as (new & Hdq & Hlen & Hpfx & _).
  - vm_compute. reflexivity.
  - vm_compute. discriminate.
  - vm_compute. reflexivity.
  - rewrite Hdq, map_app, Hpfx, Hlen. vm_compute. reflexivity.
Defined.

(** X13.  Called with a non-empty download queue, as [service_queue] does,
    [process_completed_download_queue_entries] neither loses nor duplicates
    nor reorders a task: the completed tasks at the front of the download
    queue go, in order, to the back of the process queue, the rest stays and
    fresh tasks follow it; a task behind an incomplete one stays where it
    is even when it is complete, and nothing is written.  On an empty
    download queue the function has no defined result: it reads
    [download_queue.front()] before its loop. *)
Theorem process_completed_conserves cfg s :
  (next_prefix s <= prefix_limit cfg)%N -> (prefix_limit cfg < 2 ^ 64)%N ->
  (download_queue s = [] ->
   process_completed_download_queue_entries cfg s = None)
  /\ (download_queue s <> [] ->
      exists s' moved rest new,
        process_completed_download_queue_entries cfg s = Some s'
        /\ download_queue s = moved ++ rest
        /\ process_queue s' = process_queue s ++ moved
        /\ download_queue s' = rest ++ new
        /\ Forall (fun d => complete d = true) moved
        /\ match rest with [] => True | front :: _ => complete front = false end
        /\ Forall fresh new
        /\ map prefix new = prefixes_from (next_prefix s) (length new)
        /\ written s' = written s).
Proof.
  intros Hnext Hlim. split.
  { intros E. unfold process_completed_download_queue_entries. rewrite E.
    reflexivity. }
  intros Hne. exists (shuffle_and_fill cfg s).
  assert (Hsome : process_completed_download_queue_entries cfg s
                  = Some (shuffle_and_fill cfg s)).
  { unfold process_completed_download_queue_entries.
    destruct (download_queue s); [congruence | reflexivity]. }
  unfold shuffle_and_fill in *.
  destruct (shuffle_loop_spec (download_queue s) (process_queue s))
    as (moved & E1 & E2 & Hall & Hfront).
  destruct (shuffle_loop (download_queue s) (process_queue s)) as [dq pq].
  cbn [fst snd] in *. unfold fill_download_queue in *.
  destruct (fill_loop_appends cfg
              (prefix_distance cfg (set_queues dq pq s)) (set_queues dq pq s)
              Hnext Hlim)
    as (new & Hdq & Hpfx & Hfresh & _ & _ & Hpq & Hwr).
  exists moved, dq, new. split; [exact Hsome|].
  rewrite Hdq, Hpq, Hwr. cbn [set_queues download_queue process_queue written].
  repeat split; assumption.
Qed.

Lemma process_completed_conserves_witness :
  exists s' moved rest new,
    process_completed_download_queue_entries sample_cfg sample_busy = Some s'
    /\ download_queue sample_busy = moved ++ rest
    /\ process_queue s' = process_queue sample_busy ++ moved
    /\ download_queue s' = rest ++ new.
Proof.
  destruct (process_completed_conserves sample_cfg sample_busy)
    as [_ Hsome].
  - vm_compute. discriminate.
  - vm_compute. reflexivity.
  - destruct Hsome as (s' & moved & rest & new & E0 & E1 & E2 & E3 & _).
    + discriminate.
    + exists s', moved, rest, new. repeat split; assumption.
Defined.

(** ** Writing the process queue *)

Lemma wrap64_add_l a b : wrap64 (wrap64 a + b) = wrap64 (a + b).
Proof. unfold wrap64. apply N.Div0.add_mod_idemp_l. Qed.

Lemma write_loop_counters pq : forall s,
  (files_processed s < 2 ^ 64)%N -> (bytes_processed s < 2 ^ 64)%N ->
  files_processed (write_loop pq s)
  = wrap64 (files_processed s + N.of_nat (length pq))
  /\ bytes_processed (write_loop pq s)
     = wrap64 (bytes_processed s + total_bytes pq)
  /\ next_prefix (write_loop pq s) = next_prefix s.
Proof.
  induction pq as [|front rest IH]; intros s Hf Hb.
  - cbn [write_loop length total_bytes fold_right]. rewrite !N.add_0_r.
    unfold wrap64. rewrite !N.mod_small by assumption. auto.
  - cbn [write_loop].
    assert (Ef : files_processed (write_front front rest s)
                 = wrap64 (files_processed s + 1))
      by (unfold write_front; destruct (write_lines _ _); reflexivity).
    assert (Eb : bytes_processed (write_front front rest s)
                 = wrap64 (bytes_processed s + N.of_nat (length (buffer front))))
      by (unfold write_front; destruct (write_lines _ _); reflexivity).
    destruct (IH (write_front front rest s)) as (If & Ib & In).
    { rewrite Ef. apply N.mod_lt. discriminate. }
    { rewrite Eb. apply N.mod_lt. discriminate. }
    rewrite If, Ib, In, Ef, Eb, !wrap64_add_l.
    change (total_bytes (front :: rest))
      with (N.of_nat (length (buffer front)) + total_bytes rest)%N.
    cbn [length].
    split; [f_equal; lia|]. split; [f_equal; lia|].
    apply write_front_fields.
Qed.

(** X14.  [write_completed_process_queue_entries] empties the process
    queue and leaves the download queue and [next_prefix] alone; it calls
    the write function for the tasks front to back, counts one file per
    task and adds the size of each buffer to [bytes_processed], both
    modulo 2^64. *)
Theorem write_completed_accounting s :
  (files_processed s < 2 ^ 64)%N -> (bytes_processed s < 2 ^ 64)%N ->
  let s' := write_completed_process_queue_entries s in
  process_queue s' = []
  /\ download_queue s' = download_queue s
  /\ next_prefix s' = next_prefix s
  /\ written s' = written s ++ flat_map task_records (process_queue s)
  /\ files_processed s'
     = wrap64 (files_processed s + N.of_nat (length (process_queue s)))
  /\ bytes_processed s'
     = wrap64 (bytes_processed s + total_bytes (process_queue s)).
Proof.
  intros Hf Hb s'. subst s'. unfold write_completed_process_queue_entries.
  destruct (write_loop_written (process_queue s) s) as (Hw & Hpq & Hdq).
  destruct (write_loop_counters (process_queue s) s Hf Hb) as (Ef & Eb & En).
  split; [rewrite Hpq; destruct (process_queue s); reflexivity|].
  repeat split; assumption.
Qed.

Lemma write_completed_accounting_witness :
  files_processed (write_completed_process_queue_entries sample_busy) = 8%N
  /\ bytes_processed (write_completed_process_queue_entries sample_busy) = 105%N.
Proof.
  destruct (write_completed_accounting sample_busy)
    as (_ & _ & _ & _ & Ef & Eb).
  - vm_compute. reflexivity.
  - vm_compute. reflexivity.
  - rewrite Ef, Eb. split; vm_compute; reflexivity.
Defined.

(** ** The whole run *)

Lemma step_saturated cfg s s' :
  (next_prefix s < 2 ^ 64)%N -> (prefix_limit cfg < 2 ^ 64)%N ->
  fill_continues cfg s = false -> step cfg s s' ->
  fill_continues cfg s' = false.
Proof.
  intros Hn Hl Hsat Hstep.
  destruct Hstep as [s s' Ht | s s' Hsh | s front rest Hpq].
  - destruct Ht as (Hdq & _ & _ & Enp & _).
    unfold fill_continues in *.
    rewrite Enp, <- (Forall2_length Hdq). exact Hsat.
  - apply process_completed_some in Hsh as [Hne ->]. unfold shuffle_and_fill.
    destruct (shuffle_loop (download_queue s) (process_queue s)) as [dq pq].
    apply fill_download_queue_exits; assumption.
  - unfold fill_continues in *.
    destruct (write_front_fields front rest s) as (-> & _ & -> & _).
    exact Hsat.
Qed.

Lemma reachable_saturated cfg start s :
  (start <= prefix_limit cfg)%N -> (prefix_limit cfg < 2 ^ 64)%N ->
  reachable cfg (initial cfg start) s ->
  fill_continues cfg s = false.
Proof.
  intros Hstart Hlim Hr.
  induction Hr as [|s s' Hr IH Hstep].
  - apply fill_download_queue_exits; cbn; lia.
  - destruct (run_invariant_reachable cfg start s Hstart Hlim Hr)
      as [done [_ _ Hle _ _]].
    apply (step_saturated cfg s s'); try assumption. lia.
Qed.

(** X15.  Backpressure keeps the pipeline full: in every state of a run
    the download queue holds exactly [parallel_max] tasks, unless every
    prefix below [prefix_limit] has been handed out already. *)
Theorem download_queue_saturated cfg start s :
  (start <= prefix_limit cfg)%N -> (prefix_limit cfg < 2 ^ 64)%N ->
  reachable cfg (initial cfg start) s ->
  queue_size s = parallel_max cfg \/ next_prefix s = prefix_limit cfg.
Proof.
  intros Hstart Hlim Hr.
  pose proof (reachable_saturated cfg start s Hstart Hlim Hr) as Hsat.
  unfold fill_continues in Hsat.
  apply andb_false_iff in Hsat as [H|H]; apply negb_false_iff, N.eqb_eq in H;
    [left | right]; exact H.
Qed.

Lemma download_queue_saturated_witness :
  queue_size run_all_written = parallel_max sample_cfg
  \/ next_prefix run_all_written = prefix_limit sample_cfg.
Proof.
  apply (download_queue_saturated sample_cfg 0xFFFFE run_all_written).
  - vm_compute. discriminate.
  - vm_compute. reflexivity.
  - exact run_all_written_reachable.
Defined.

(** X17.  With [parallel_max] zero nothing is ever downloaded: the first
    [fill_download_queue] enqueues nothing, so the loop of [service_queue]
    is not entered, and in every state of the run both queues are empty and
    nothing has been written, whatever prefixes were asked for. *)
Theorem run_without_parallelism cfg start s :
  parallel_max cfg = 0%N ->
  reachable cfg (initial cfg start) s ->
  download_queue s = [] /\ process_queue s = [] /\ written s = []
  /\ next_prefix s = start.
Proof.
  intros Hpar Hr.
  assert (Hinit : initial cfg start = mk_queues [] [] start 0 0 0 []).
  { unfold initial, fill_download_queue. apply fill_loop_stops.
    unfold fill_continues. cbn [download_queue length]. rewrite Hpar.
    reflexivity. }
  rewrite Hinit in Hr. clear Hinit.
  induction Hr as [|s s' _ (Hdq & Hpq & Hw & Hn) Hstep].
  - repeat split; reflexivity.
  - destruct Hstep as [s s' Ht | s s' Hsh | s front rest Hfront].
    + destruct Ht as (Hf & _ & Epq & Enp & _ & _ & _ & Ewr).
      rewrite Hdq in Hf. inversion Hf. repeat split; congruence.
    + apply process_completed_some in Hsh as [Hne _]. contradiction.
    + congruence.
Qed.

Lemma run_without_parallelism_witness :
  written (initial (mk_cli_config 0 0x100000) 0) = [].
Proof.
  apply (run_without_parallelism (mk_cli_config 0 0x100000) 0).
  - reflexivity.
  - apply reach_start.
Defined.

(** ** Releasing the transport handles *)

Lemma release_loop_cerr remove_result dq :
  cerr_lines (fst (release_loop remove_result dq))
  = flat_map (fun h => match remove_result h with
                       | Some err => [remove_error_line err]
                       | None => []
                       end)
             (handles_of dq).
Proof.
  unfold cerr_lines, handles_of.
  induction dq as [|dl rest IH]; [reflexivity|].
  cbn [release_loop]. destruct (release_loop remove_result rest) as [later dq'].
  cbn [fst flat_map] in *. rewrite !flat_map_app, IH.
  destruct (easy dl) as [h|]; [|reflexivity].
  cbn [flat_map app]. destruct (remove_result h); reflexivity.
Qed.

(** X18.  While the queue is emptied after a failure, a
    [curl_multi_remove_handle] that fails is reported on [std::cerr], once
    for each failing handle and in queue order, and stops nothing: the
    handle is cleaned up all the same, the following tasks are released,
    and tasks without a handle cause no call at all. *)
Theorem release_loop_reports remove_result dq :
  cerr_lines (fst (release_loop remove_result dq))
  = flat_map (fun h => match remove_result h with
                       | Some err => [remove_error_line err]
                       | None => []
                       end)
             (handles_of dq)
  /\ removed_handles (fst (release_loop remove_result dq)) = handles_of dq
  /\ cleaned_handles (fst (release_loop remove_result dq)) = handles_of dq
  /\ (handles_of dq = [] -> fst (release_loop remove_result dq) = [])
  /\ snd (release_loop remove_result dq) = [].
Proof.
  split; [apply release_loop_cerr|].
  split; [apply release_loop_handles|].
  split; [apply release_loop_handles|].
  split; [|apply release_loop_empties].
  unfold handles_of. induction dq as [|dl rest IH]; [reflexivity|].
  cbn [release_loop flat_map].
  destruct (release_loop remove_result rest) as [later dq'].
  cbn [fst] in *. destruct (easy dl) as [h|]; [discriminate|].
  cbn [app]. exact IH.
Qed.

Lemma release_loop_reports_witness :
  fst (release_loop sample_remove
         [mk_download (str "00000") [] false None;
          mk_download (str "00001") [] true None])
  = [].
Proof.
  apply (release_loop_reports sample_remove
           [mk_download (str "00000") [] false None;
            mk_download (str "00001") [] true None]).
  reflexivity.
Defined.

(** X19.  [run_threads] returns without throwing exactly when neither
    slot holds an exception; it then only shuts the transport down: no
    handle is removed or cleaned up and the queue is left as it is.
    Whenever it throws the composite error, the queue has been emptied. *)
Theorem run_threads_returns
    (thrnames0 : gmap nat (list ascii)) (que_thr_id req_thr_id : nat)
    (requests_exception queuemgt_exception : option exception)
    (remove_result : nat -> option (list ascii)) (dq : list download) :
  let r := run_threads thrnames0 que_thr_id req_thr_id
             requests_exception queuemgt_exception remove_result dq in
  (thrown r = None
   <-> requests_exception = None /\ queuemgt_exception = None)
  /\ (thrown r = None ->
      effects r = [shutdown_curl_and_events] /\ queue_left r = dq)
  /\ (thrown r = Some (std_exception abort_message) -> queue_left r = []).
Proof.
  cbv zeta. unfold run_threads, handle_exception.
  pose proof (release_loop_empties remove_result dq) as Hq.
  destruct (release_loop remove_result dq) as [released dq'].
  cbn [snd] in Hq. subst dq'.
  destruct requests_exception as [[w1|]|], queuemgt_exception as [[w2|]|];
    cbn [orb thrown effects queue_left app];
    (split; [split; [try discriminate; auto | intros [? ?]; congruence]|]);
    (split; [intros E; try discriminate; auto|]);
    intros E; try reflexivity; discriminate.
Qed.

Lemma run_threads_returns_witness :
  effects (run_threads ∅ 1 2 None None (fun _ => None) two_tasks)
  = [shutdown_curl_and_events]
  /\ queue_left (run_threads ∅ 1 2 None None (fun _ => None) two_tasks)
     = two_tasks.
Proof.
  apply (run_threads_returns ∅ 1 2 None None (fun _ => None) two_tasks).
  reflexivity.
Defined.

(** ** Preparing the sources of the server *)

Section ServerSources.
Variable open_source : source_kind -> list ascii -> option exception.
Variable toc_build : source_kind -> list ascii -> Z -> option exception.
Variable run_server : srv_cli_config_t -> option exception.

Let source_ready := source_is_ready open_source toc_build.

Lemma and_then_none a b : and_then a b = None <-> a = None /\ b = None.
Proof.
  unfold and_then. destruct a; split; try discriminate; auto.
  - intros [H _]. discriminate.
  - intros [_ H]. exact H.
Qed.

Lemma prep_db_ready cli kind name :
  is_db kind = true ->
  prep_db open_source toc_build kind name (toc cli) (toc_bits cli) = None
  <-> source_ready cli (kind, name).
Proof.
  intros Hdb. unfold prep_db, source_ready, source_is_ready. cbn [fst snd].
  rewrite and_then_none. destruct (toc cli).
  - split; intros [H1 H2]; split; auto.
  - split; intros [H1 H2]; split; auto. discriminate.
Qed.

Lemma prep_filter_ready cli kind name :
  is_db kind = false ->
  prep_filter open_source kind name = None <-> source_ready cli (kind, name).
Proof.
  intros Hdb. unfold prep_filter, source_ready, source_is_ready. cbn [fst snd].
  rewrite Hdb. split; [intros H; split; [exact H | discriminate] | intros [H _]; exact H].
Qed.

Lemma when_set_none name act (P : Prop) :
  (act = None <-> P) ->
  when_set name act = None <-> (is_empty name = false -> P).
Proof.
  intros Hact. unfold when_set. destruct (is_empty name); cbn [negb].
  - split; [discriminate | reflexivity].
  - rewrite Hact. split; auto.
Qed.

Lemma prep_sources_ready cli :
  prep_sources open_source toc_build cli = None
  <-> Forall (source_ready cli) (configured cli).
Proof.
  unfold prep_sources. rewrite !and_then_none.
  rewrite (when_set_none _ _ _ (prep_db_ready cli sha1_db _ eq_refl)).
  rewrite (when_set_none _ _ _ (prep_db_ready cli ntlm_db _ eq_refl)).
  rewrite (when_set_none _ _ _ (prep_db_ready cli sha1t64_db _ eq_refl)).
  rewrite (when_set_none _ _ _ (prep_filter_ready cli binfuse8_filter _ eq_refl)).
  rewrite (when_set_none _ _ _ (prep_filter_ready cli binfuse16_filter _ eq_refl)).
  unfold configured. cbn [filter snd].
  destruct (is_empty (sha1_db_filename cli)),
           (is_empty (ntlm_db_filename cli)),
           (is_empty (sha1t64_db_filename cli)),
           (is_empty (binfuse8_filter_filename cli)),
           (is_empty (binfuse16_filter_filename cli));
    cbn [negb]; rewrite ?Forall_cons_iff, ?Forall_nil_iff; intuition congruence.
Qed.

Lemma no_source_configured cli : no_source cli = true <-> configured cli = [].
Proof.
  unfold no_source, configured. cbn [filter snd].
  destruct (is_empty (sha1_db_filename cli)),
           (is_empty (ntlm_db_filename cli)),
           (is_empty (sha1t64_db_filename cli)),
           (is_empty (binfuse8_filter_filename cli)),
           (is_empty (binfuse16_filter_filename cli));
    cbn [negb andb]; split; congruence.
Qed.

(** X20.  The server goes on to [EXIT_SUCCESS] exactly when at least one
    source is configured, every configured source opens, under [--toc] the
    table of contents of every configured database builds (filters get
    none), and [run_server] returns.  Sources that are not configured are
    never asked for, and when a source fails the outcome does not depend on
    [run_server]. *)
Theorem server_main_success cli :
  (server_main open_source toc_build run_server (parsed cli) = Some EXIT_SUCCESS
   <-> configured cli <> []
       /\ Forall (source_ready cli) (configured cli)
       /\ run_server cli = None)
  /\ (forall run_server',
        ~ Forall (source_ready cli) (configured cli) ->
        server_main open_source toc_build run_server' (parsed cli)
        = server_main open_source toc_build run_server (parsed cli)).
Proof.
  unfold server_main, server_try. split.
  - rewrite <- prep_sources_ready.
    destruct (no_source cli) eqn:Hno.
    + apply no_source_configured in Hno. rewrite Hno. cbn [and_then].
      split; [discriminate | intros [H _]; congruence].
    + assert (Hc : configured cli <> []).
      { intros E. apply no_source_configured in E. congruence. }
      cbn [and_then].
      destruct (prep_sources open_source toc_build cli) as [[w|]|];
        cbn [and_then]; try (split; [discriminate | intros (_ & H & _); discriminate]).
      destruct (run_server cli) as [[w|]|];
        try (split; [discriminate | intros (_ & _ & H); discriminate]).
      split; auto.
  - intros run_server' Hfail. rewrite <- prep_sources_ready in Hfail.
    destruct (no_source cli); [reflexivity|]. cbn [and_then].
    destruct (prep_sources open_source toc_build cli) as [[w|]|];
      cbn [and_then]; try reflexivity.
    exfalso. apply Hfail. reflexivity.
Qed.
End ServerSources.

Lemma server_main_success_witness :
  server_main (fun _ _ => None) (fun _ _ _ => None) (fun _ => None)
    (parsed sample_cli_toc)
  = Some EXIT_SUCCESS.
Proof.
  destruct (server_main_success (fun _ _ => None) (fun _ _ _ => None)
              (fun _ => None) sample_cli_toc) as [[_ Hok] _].
  apply Hok.
  split; [vm_compute; discriminate|].
  split; [|reflexivity].
  repeat constructor.
Defined.

(** ** Looking a hash up *)

Lemma cmp_key a b :
  well_formed a -> well_formed b ->
  pawned_pw_cmp a b = (key a ?= key b).
Proof.
  intros (La & Ba & _) (Lb & Bb & _). unfold pawned_pw_cmp, key.
  apply three_way_be_value; [congruence | assumption | assumption].
Qed.

Lemma key_hash a b :
  well_formed a -> well_formed b ->
  (key a = key b <-> hash a = hash b).
Proof.
  intros Ha Hb. pose proof (cmp_key a b Ha Hb) as Hc.
  destruct Ha as (La & Ba & _), Hb as (Lb & Bb & _).
  assert (Hlen : length (hash a) = length (hash b)) by congruence.
  rewrite <- (three_way_Eq _ _ Hlen). unfold pawned_pw_cmp in Hc.
  rewrite Hc. symmetry. apply Z.compare_eq_iff.
Qed.

Lemma eq_hash a b :
  well_formed a -> well_formed b ->
  (pawned_pw_eq a b = true <-> hash a = hash b).
Proof.
  intros (La & _) (Lb & _). unfold pawned_pw_eq.
  apply array_compare_equal_spec. congruence.
Qed.

Lemma nth_well_formed db i :
  Forall well_formed db -> (i < length db)%nat ->
  well_formed (nth i db dummy_pw).
Proof.
  intros Hall Hi. rewrite Forall_forall in Hall. apply Hall, nth_In, Hi.
Qed.

Lemma lower_bound_loop_spec db value :
  Forall well_formed db -> well_formed value -> sorted_db db ->
  forall fuel first cnt,
    (cnt <= fuel)%nat -> (first + cnt <= length db)%nat ->
    (forall i, (i < first)%nat -> key (nth i db dummy_pw) < key value) ->
    (forall i, (first + cnt <= i < length db)%nat ->
               key value <= key (nth i db dummy_pw)) ->
    let r := lower_bound_loop fuel db first cnt value in
    (r <= length db)%nat
    /\ (forall i, (i < r)%nat -> key (nth i db dummy_pw) < key value)
    /\ (forall i, (r <= i < length db)%nat ->
                  key value <= key (nth i db dummy_pw)).
Proof.
  intros Hwf Hv Hsorted.
  induction fuel as [|fuel IH]; intros first cnt Hfuel Hlen Hlow Hhigh.
  - cbn [lower_bound_loop]. assert (cnt = 0%nat) by lia. subst cnt.
    rewrite Nat.add_0_r in Hhigh. repeat split; [lia | exact Hlow | exact Hhigh].
  - cbn [lower_bound_loop]. destruct (Nat.ltb_spec 0 cnt) as [Hpos|Hz].
    + pose proof (Nat.div_lt cnt 2 Hpos ltac:(lia)) as Hstep.
      set (step := (cnt / 2)%nat) in *.
      assert (Hit : (first + step < length db)%nat) by lia.
      rewrite (cmp_key _ _ (nth_well_formed db _ Hwf Hit) Hv).
      destruct (Z.compare_spec (key (nth (first + step) db dummy_pw)) (key value))
        as [Heq|Hlt|Hgt].
      * apply IH; [lia | lia | exact Hlow |].
        intros i Hi. specialize (Hsorted (first + step)%nat i ltac:(lia)). lia.
      * apply IH; [lia | lia | | intros i Hi; apply Hhigh; lia].
        intros i Hi. specialize (Hsorted i (first + step)%nat ltac:(lia)). lia.
      * apply IH; [lia | lia | exact Hlow |].
        intros i Hi. specialize (Hsorted (first + step)%nat i ltac:(lia)). lia.
    + assert (cnt = 0%nat) by lia. subst cnt.
      rewrite Nat.add_0_r in Hhigh.
      repeat split; [lia | exact Hlow | exact Hhigh].
Qed.

Lemma lower_bound_spec db value :
  Forall well_formed db -> well_formed value -> sorted_db db ->
  (lower_bound db value <= length db)%nat
  /\ (forall i, (i < lower_bound db value)%nat ->
                key (nth i db dummy_pw) < key value)
  /\ (forall i, (lower_bound db value <= i < length db)%nat ->
                key value <= key (nth i db dummy_pw)).
Proof.
  intros Hwf Hv Hsorted. unfold lower_bound.
  apply (lower_bound_loop_spec db value Hwf Hv Hsorted);
    [lia | lia | intros i Hi; lia | intros i Hi; lia].
Qed.

Lemma lower_bound_found db value :
  Forall well_formed db -> well_formed value -> sorted_db db ->
  ((lower_bound db value <? length db)%nat
   && pawned_pw_eq (nth (lower_bound db value) db dummy_pw) value = true
   <-> exists r, In r db /\ hash r = hash value).
Proof.
  intros Hwf Hv Hsorted.
  destruct (lower_bound_spec db value Hwf Hv Hsorted) as (Hle & Hlow & Hhigh).
  set (it := lower_bound db value) in *.
  rewrite andb_true_iff, Nat.ltb_lt. split.
  - intros [Hit Heq]. exists (nth it db dummy_pw).
    split; [apply nth_In; exact Hit|].
    pose proof (nth_well_formed db it Hwf Hit) as Hw.
    apply (eq_hash _ _ Hw Hv). exact Heq.
  - intros (r & Hin & Hhash).
    apply (In_nth _ _ dummy_pw) in Hin as (i & Hi & <-).
    pose proof (nth_well_formed db i Hwf Hi) as Hwi.
    apply (key_hash _ _ Hwi Hv) in Hhash.
    assert (Hge : (it <= i)%nat).
    { destruct (Nat.le_gt_cases it i) as [|Hlt]; [assumption|].
      specialize (Hlow i Hlt). lia. }
    assert (Hit : (it < length db)%nat) by lia.
    split; [exact Hit|].
    pose proof (nth_well_formed db it Hwf Hit) as Hw.
    apply (eq_hash _ _ Hw Hv). apply (key_hash _ _ Hw Hv).
    specialize (Hhigh it ltac:(lia)). specialize (Hsorted it i ltac:(lia)). lia.
Qed.

Lemma to_string_total p :
  to_string p
  = Some (render low_nibble_char low_nibble_char (hash p)
          ++ ":"%char :: to_chars (count p)).
Proof. unfold to_string. rewrite hash_to_hex_spec. reflexivity. Qed.

(** X21.  The search tool answers rightly on a sorted database: when the
    database opens, its records are well formed and in ascending order of
    hash, and the SHA-1 text converts, [main] prints the needle and then a
    line "found  = ..." with a record of that very hash exactly when the
    database holds one, and "not found" exactly when it holds none. *)
Theorem hibp_main_lookup
    (open_db : list ascii -> exception + list pawned_pw)
    (sha1_final : list ascii -> list ascii)
    (argv : list (list ascii)) db needle :
  (3 <= length argv)%nat ->
  open_db (nth 1 argv []) = inr db ->
  convert_to_binary (sha1_final (nth 2 argv [])) = Some needle ->
  Forall well_formed db -> sorted_db db ->
  exists needle_text answer,
    hibp_main open_db sha1_final argv
    = Some (mk_exit EXIT_SUCCESS
              [str "needle = " ++ needle_text ++ [LF]; answer] [])
    /\ to_string needle = Some needle_text
    /\ ((exists r, In r db /\ hash r = hash needle) ->
        exists r found_text,
          In r db /\ hash r = hash needle
          /\ to_string r = Some found_text
          /\ answer = str "found  = " ++ found_text ++ [LF])
    /\ (~ (exists r, In r db /\ hash r = hash needle) ->
        answer = str "not found" ++ [LF]).
Proof.
  intros Hargc Hopen Hneedle Hwf Hsorted.
  pose proof (proj1 (convert_to_binary_wf _ _ Hneedle)) as Hv.
  pose proof (lower_bound_found db needle Hwf Hv Hsorted) as Hfound.
  unfold hibp_main, hibp_try.
  replace (length argv <? 3)%nat with false
    by (symmetry; apply Nat.ltb_ge; exact Hargc).
  rewrite Hopen, Hneedle.
  set (it := lower_bound db needle) in *.
  rewrite (to_string_total needle).
  destruct ((it <? length db)%nat && pawned_pw_eq (nth it db dummy_pw) needle)
    eqn:Hhit.
  - rewrite (to_string_total (nth it db dummy_pw)).
    eexists. eexists. split; [reflexivity|]. split; [reflexivity|].
    apply andb_true_iff in Hhit as [Hit Heq]. apply Nat.ltb_lt in Hit.
    pose proof (nth_well_formed db it Hwf Hit) as Hw.
    split.
    + intros _. eexists. eexists.
      split; [apply nth_In; exact Hit|].
      split; [apply (eq_hash _ _ Hw Hv); exact Heq|].
      split; [apply to_string_total | reflexivity].
    + intros Hno. exfalso. apply Hno. apply Hfound. reflexivity.
  - eexists. eexists. split; [reflexivity|]. split; [reflexivity|].
    split.
    + intros Hyes. apply Hfound in Hyes. discriminate.
    + intros _. reflexivity.
Qed.

Lemma sample_db_sorted : sorted_db sample_db.
Proof.
  intros i j Hij. cbn [sample_db length] in Hij.
  assert (Hi : (i = 0 \/ i = 1 \/ i = 2)%nat) by lia.
  assert (Hj : (j = 0 \/ j = 1 \/ j = 2)%nat) by lia.
  destruct Hi as [-> | [-> | ->]], Hj as [-> | [-> | ->]];
    try lia; vm_compute; discriminate.
Defined.

Lemma hibp_main_lookup_witness :
  exists needle_text answer,
    hibp_main (fun _ => inr sample_db)
      (fun _ => str "21BD12DC183F740EE76F27B78EB39C8AD972A757")
      [str "hibp"; str "db.bin"; str "P@ssw0rd"]
    = Some (mk_exit EXIT_SUCCESS
              [str "needle = " ++ needle_text ++ [LF]; answer] []).
Proof.
  destruct (hibp_main_lookup (fun _ => inr sample_db)
              (fun _ => str "21BD12DC183F740EE76F27B78EB39C8AD972A757")
              [str "hibp"; str "db.bin"; str "P@ssw0rd"]
              sample_db (mk_pawned_pw sample_hash (-1)))
    as (needle_text & answer & E & _).
  - cbn [length]. lia.
  - reflexivity.
  - vm_compute. reflexivity.
  - repeat constructor; try reflexivity;
      try (vm_compute; discriminate);
      apply Forall_forall; intros x Hx; cbn in Hx;
      repeat (destruct Hx as [<-|Hx]; [unfold is_byte; vm_compute; split; discriminate|]);
      contradiction.
  - exact sample_db_sorted.
  - exists needle_text, answer. exact E.
Defined.

(** ** What a run never does *)

Lemma fill_loop_frame cfg fuel : forall s,
  process_queue (fill_loop fuel cfg s) = process_queue s
  /\ written (fill_loop fuel cfg s) = written s.
Proof.
  induction fuel as [|fuel IH]; intros s; [split; reflexivity|].
  cbn [fill_loop]. destruct (fill_continues cfg s); [|split; reflexivity].
  destruct (IH (add_download (format_05X (next_prefix s))
                  (set_next_prefix (wrap64 (next_prefix s + 1)) s))) as [-> ->].
  split; reflexivity.
Qed.

(** X24.  The bounds of the run are kept: every task a run ever holds, in
    flight, waiting or written, carries the formatted text of a prefix that
    is at least the start prefix and below [prefix_limit], and
    [next_prefix] never passes [prefix_limit]. *)
Theorem prefixes_within_bounds cfg start s :
  (start <= prefix_limit cfg)%N -> (prefix_limit cfg < 2 ^ 64)%N ->
  reachable cfg (initial cfg start) s ->
  (start <= next_prefix s <= prefix_limit cfg)%N
  /\ exists done,
       written s = flat_map task_records done
       /\ Forall (fun d => exists n, (start <= n < prefix_limit cfg)%N
                                     /\ prefix d = format_05X n)
                 (done ++ process_queue s ++ download_queue s).
Proof.
  intros Hstart Hlim Hr.
  destruct (run_invariant_reachable cfg start s Hstart Hlim Hr)
    as [done [Hp Hn Hle Hw _]].
  split; [lia|]. exists done. split; [exact Hw|].
  apply Forall_forall. intros d Hd.
  assert (Hin : In (prefix d)
                  (map prefix (done ++ process_queue s ++ download_queue s)))
    by (apply in_map; exact Hd).
  rewrite Hp in Hin. unfold prefixes_from in Hin.
  apply in_map_iff in Hin as (i & E & Hi). apply in_seq in Hi.
  exists (N.of_nat i). split; [lia | symmetry; exact E].
Qed.

Lemma prefixes_within_bounds_witness :
  (0xFFFFE <= next_prefix run_all_written <= prefix_limit sample_cfg)%N.
Proof.
  apply (prefixes_within_bounds sample_cfg 0xFFFFE run_all_written).
  - vm_compute. discriminate.
  - vm_compute. reflexivity.
  - exact run_all_written_reachable.
Defined.

(** ** The tasks a run writes *)

Lemma run_writes_reachable cfg s0 s done :
  run_writes cfg s0 s done -> reachable cfg s0 s.
Proof.
  induction 1 as [|s s' done _ IH Ht|s s' done _ IH Hsh|s front rest done _ IH Hpq].
  - apply reach_start.
  - eapply reach_step; [exact IH | apply step_transport; exact Ht].
  - eapply reach_step; [exact IH | apply step_shuffle; exact Hsh].
  - eapply reach_step; [exact IH | apply step_write; exact Hpq].
Qed.

Lemma reachable_run_writes cfg s0 s :
  reachable cfg s0 s -> exists done, run_writes cfg s0 s done.
Proof.
  induction 1 as [|s s' _ [done IH] Hstep].
  - exists []. apply rw_start.
  - destruct Hstep as [s s' Ht | s s' Hsh | s front rest Hpq].
    + exists done. eapply rw_transport; eassumption.
    + exists done. eapply rw_shuffle; eassumption.
    + exists (done ++ [front]). apply rw_write; assumption.
Qed.

Lemma fill_loop_counters cfg fuel : forall s,
  files_processed (fill_loop fuel cfg s) = files_processed s
  /\ bytes_processed (fill_loop fuel cfg s) = bytes_processed s.
Proof.
  induction fuel as [|fuel IH]; intros s; [split; reflexivity|].
  cbn [fill_loop]. destruct (fill_continues cfg s); [|split; reflexivity].
  destruct (IH (add_download (format_05X (next_prefix s))
                  (set_next_prefix (wrap64 (next_prefix s + 1)) s))) as [-> ->].
  split; reflexivity.
Qed.

(** What the written tasks have to do with the state: the trace of calls
    is that of these tasks, all of them and those waiting are complete, and
    [files_processed] counts them. *)
Lemma run_writes_tasks cfg start s done :
  run_writes cfg (initial cfg start) s done ->
  written s = flat_map task_records done
  /\ Forall (fun d => complete d = true) (done ++ process_queue s)
  /\ files_processed s = wrap64 (N.of_nat (length done)).
Proof.
  induction 1 as [|s s' done _ IH Ht|s s' done _ IH Hsh|s front rest done _ IH Hpq].
  - unfold initial, fill_download_queue.
    destruct (fill_loop_frame cfg
                (prefix_distance cfg (mk_queues [] [] start 0 0 0 []))
                (mk_queues [] [] start 0 0 0 [])) as [-> ->].
    destruct (fill_loop_counters cfg
                (prefix_distance cfg (mk_queues [] [] start 0 0 0 []))
                (mk_queues [] [] start 0 0 0 [])) as [-> _].
    split; [reflexivity|]. split; [constructor | reflexivity].
  - destruct IH as (Hw & Hall & Hf).
    destruct Ht as (_ & _ & -> & _ & _ & -> & _ & ->). auto.
  - destruct IH as (Hw & Hall & Hf).
    apply process_completed_some in Hsh as [Hne ->]. unfold shuffle_and_fill.
    destruct (shuffle_loop_spec (download_queue s) (process_queue s))
      as (moved & _ & E2 & Hmoved & _).
    destruct (shuffle_loop (download_queue s) (process_queue s)) as [dq pq].
    cbn [snd] in E2. unfold fill_download_queue.
    destruct (fill_loop_frame cfg (prefix_distance cfg (set_queues dq pq s))
                (set_queues dq pq s)) as [-> ->].
    destruct (fill_loop_counters cfg (prefix_distance cfg (set_queues dq pq s))
                (set_queues dq pq s)) as [-> _].
    cbn [set_queues process_queue written files_processed].
    split; [exact Hw|]. split; [|exact Hf].
    rewrite E2, app_assoc. apply Forall_app. split; assumption.
  - destruct IH as (Hw & Hall & Hf).
    destruct (write_front_fields front rest s) as (_ & -> & _ & ->).
    assert (Ef : files_processed (write_front front rest s)
                 = wrap64 (files_processed s + 1))
      by (unfold write_front; destruct (write_lines _ _); reflexivity).
    rewrite Ef, Hf, Hw, flat_map_app, wrap64_add_l, length_app.
    cbn [flat_map length]. rewrite app_nil_r.
    split; [reflexivity|]. split.
    + rewrite Hpq in Hall. rewrite <- app_assoc. exact Hall.
    + f_equal. lia.
Qed.

Lemma run_writes_invariant cfg start s done :
  (start <= prefix_limit cfg)%N -> (prefix_limit cfg < 2 ^ 64)%N ->
  run_writes cfg (initial cfg start) s done ->
  run_invariant cfg start s done.
Proof.
  intros Hstart Hlim.
  induction 1 as [|s s' done _ IH Ht|s s' done _ IH Hsh|s front rest done _ IH Hpq].
  - apply run_invariant_initial; assumption.
  - destruct IH as [Hp Hn Hl Hw Hf].
    destruct Ht as (Hdq & Hfit & Epq & Enp & _ & _ & _ & Ewr).
    assert (Hmap : map prefix (download_queue s') = map prefix (download_queue s)).
    { clear -Hdq. induction Hdq as [|d d' l l' E _ IH]; [reflexivity|].
      cbn [map]. rewrite IH, E. reflexivity. }
    assert (Hlen : length (download_queue s') = length (download_queue s))
      by (symmetry; exact (Forall2_length Hdq)).
    constructor; rewrite ?Epq, ?Enp, ?Ewr; try assumption.
    + rewrite !map_app, Hmap, <- !map_app.
      rewrite !length_app, Hlen, <- !length_app. exact Hp.
    + rewrite !length_app, Hlen, <- !length_app. exact Hn.
    + rewrite !app_assoc in Hf |- *. apply Forall_app in Hf as [Hf _].
      apply Forall_app. split; assumption.
  - apply process_completed_some in Hsh as [Hne ->]. unfold shuffle_and_fill.
    destruct (shuffle_loop_spec (download_queue s) (process_queue s))
      as (moved & E1 & E2 & _).
    destruct (shuffle_loop (download_queue s) (process_queue s)) as [dq pq].
    cbn [fst snd] in *. apply run_invariant_fill; [assumption|].
    destruct IH as [Hp Hn Hl Hw Hf].
    assert (E : pq ++ dq = process_queue s ++ download_queue s)
      by (rewrite E1, E2, <- app_assoc; reflexivity).
    constructor; cbn [set_queues process_queue download_queue next_prefix written];
      rewrite ?E; assumption.
  - destruct IH as [Hp Hn Hl Hw Hf].
    destruct (write_front_fields front rest s) as (Edq & Epq & Enp & Ewr).
    assert (E : (done ++ [front]) ++ rest ++ download_queue s
                = done ++ process_queue s ++ download_queue s)
      by (rewrite Hpq, <- app_assoc; reflexivity).
    constructor; rewrite ?Edq, ?Epq, ?Enp, ?E; try assumption.
    rewrite Ewr, Hw, flat_map_app. cbn [flat_map]. rewrite app_nil_r.
    reflexivity.
Qed.

Lemma run_all_written_writes :
  run_writes sample_cfg (initial sample_cfg 0xFFFFE) run_all_written
    run_written_tasks.
Proof.
  change run_written_tasks
    with (([] ++ [mk_download (str "FFFFE")
                    (str "A:1" ++ [CR; LF] ++ str "B:2" ++ [CR; LF])
                    true (Some 0%nat)])
          ++ [mk_download (str "FFFFF") (str "C:3") true (Some 1%nat)]).
  apply (rw_write sample_cfg _ run_first_written); [|reflexivity].
  apply (rw_write sample_cfg _ run_moved); [|reflexivity].
  apply (rw_shuffle sample_cfg _ run_fetched); [|reflexivity].
  apply (rw_transport sample_cfg _ (initial sample_cfg 0xFFFFE));
    [apply rw_start|].
  unfold transport. split.
  - change (download_queue (initial sample_cfg 0xFFFFE))
      with [mk_download (str "FFFFE") [] false (Some 0%nat);
            mk_download (str "FFFFF") [] false (Some 1%nat)].
    repeat constructor.
  - split; [|repeat split; reflexivity].
    repeat constructor; unfold buffer_fits; vm_compute; reflexivity.
Defined.

(** X16.  Nothing is skipped: take a run with the tasks it has written, in
    the order and the state in which they left the process queue.  When
    both queues are empty, which is when the loop of [service_queue] ends
    and its last writes are done, and [parallel_max] is not zero, these
    tasks are those of all prefixes from the start prefix up to
    [prefix_limit], one each and in order, all complete; the calls made to
    the write function are exactly theirs, and [files_processed] is their
    number. *)
Theorem run_complete cfg start s done :
  (start <= prefix_limit cfg)%N -> (prefix_limit cfg < 2 ^ 64)%N ->
  parallel_max cfg <> 0%N ->
  run_writes cfg (initial cfg start) s done ->
  download_queue s = [] -> process_queue s = [] ->
  written s = flat_map task_records done
  /\ map prefix done
     = prefixes_from start (N.to_nat (prefix_limit cfg - start))
  /\ length done = N.to_nat (prefix_limit cfg - start)
  /\ Forall (fun d => complete d = true) done
  /\ files_processed s = (prefix_limit cfg - start)%N
  /\ next_prefix s = prefix_limit cfg.
Proof.
  intros Hstart Hlim Hpar Hrun Hdq Hpq.
  pose proof (run_writes_reachable _ _ _ _ Hrun) as Hr.
  destruct (run_writes_invariant cfg start s done Hstart Hlim Hrun)
    as [Hp Hn Hle _ _].
  destruct (run_writes_tasks cfg start s done Hrun) as (Hw & Hall & Hf).
  pose proof (reachable_saturated cfg start s Hstart Hlim Hr) as Hsat.
  unfold fill_continues in Hsat. rewrite Hdq in Hsat. cbn [length] in Hsat.
  assert (Hend : next_prefix s = prefix_limit cfg).
  { apply andb_false_iff in Hsat as [H|H]; apply negb_false_iff, N.eqb_eq in H;
      [lia | exact H]. }
  rewrite Hdq, Hpq, !app_nil_r in Hp, Hn. rewrite Hpq, app_nil_r in Hall.
  assert (Hlen : length done = N.to_nat (prefix_limit cfg - start)) by lia.
  split; [exact Hw|]. split; [rewrite <- Hlen; exact Hp|].
  split; [exact Hlen|]. split; [exact Hall|]. split; [|exact Hend].
  rewrite Hf. unfold wrap64. rewrite N.mod_small by lia. lia.
Qed.

Lemma run_complete_witness :
  written run_all_written = flat_map task_records run_written_tasks
  /\ files_processed run_all_written = 2%N.
Proof.
  destruct (run_complete sample_cfg 0xFFFFE run_all_written run_written_tasks)
    as (Hw & _ & _ & _ & Hf & _).
  - vm_compute. discriminate.
  - vm_compute. reflexivity.
  - vm_compute. discriminate.
  - exact run_all_written_writes.
  - reflexivity.
  - reflexivity.
  - split; [exact Hw | exact Hf].
Defined.

(** X23.  Only finished downloads are written: take a run with the tasks
    it has written, as they were when they left the process queue.  Each of
    them, and each task waiting in the process queue, is marked complete,
    and the calls made to the write function are exactly those of the
    written tasks. *)
Theorem only_complete_written cfg start s done :
  run_writes cfg (initial cfg start) s done ->
  Forall (fun d => complete d = true) (done ++ process_queue s)
  /\ written s = flat_map task_records done.
Proof.
  intros Hrun.
  destruct (run_writes_tasks cfg start s done Hrun) as (Hw & Hall & _).
  split; assumption.
Qed.

Lemma only_complete_written_witness :
  Forall (fun d => complete d = true)
         (run_written_tasks ++ process_queue run_all_written).
Proof.
  apply (only_complete_written sample_cfg 0xFFFFE run_all_written
           run_written_tasks).
  exact run_all_written_writes.
Defined.
